(** * rebound: vectors, quaternions and rotations (src/rotations.c)

    The C code computes on [double].  Its arithmetic core (everything that
    only uses [+ - * /], [sqrt], [fabs] and comparisons) is embedded once,
    over an interface [Double] of scalar operations, and read at two
    instances:

    - [float] (IEEE 754 binary64, the kernel's primitive floats), which is
      what the compiled program computes, used to evaluate the code at
      concrete inputs;
    - [R] (exact real arithmetic), the idealisation in which the algebraic
      laws of the rotations are stated and proved.  Division by zero has no
      meaning there ([Rdiv] returns [0]); every theorem over [R] carries the
      hypotheses that keep the code away from it, and where the code does
      divide by zero the binary64 instance is the reference.

    The functions that call libm ([cos], [sin], [acos], [atan2]) are embedded
    over [R] only, with the mathematical functions in place of libm's. *)

From Stdlib Require Import Floats.
From Stdlib Require Import Reals Lra Lia ZArith List Bool Psatz.
Import ListNotations.

(** ** Scalars *)

Class Double (T : Type) : Type := {
  d0 : T;                     (* the literals 0, 0.0 *)
  d1 : T;                     (* the literals 1, 1., 1.0 *)
  d2 : T;                     (* the literal 2 *)
  dadd : T -> T -> T;
  dsub : T -> T -> T;
  dmul : T -> T -> T;
  ddiv : T -> T -> T;
  dopp : T -> T;
  dsqrt : T -> T;
  dfabs : T -> T;
  dleb : T -> T -> bool;      (* a <= b *)
  deqb : T -> T -> bool       (* a == b *)
}.

Declare Scope double_scope.
Delimit Scope double_scope with dbl.
Infix "+" := dadd : double_scope.
Infix "-" := dsub : double_scope.
Infix "*" := dmul : double_scope.
Infix "/" := ddiv : double_scope.
Notation "- a" := (dopp a) : double_scope.
Notation "a <=? b" := (dleb a b) : double_scope.
Notation "a >=? b" := (dleb b a) : double_scope.
Notation "a ==? b" := (deqb a b) (at level 70) : double_scope.

(** binary64 *)
#[global] Instance float_Double : Double float := {|
  d0 := 0%float; d1 := 1%float; d2 := 2%float;
  dadd := PrimFloat.add; dsub := PrimFloat.sub;
  dmul := PrimFloat.mul; ddiv := PrimFloat.div;
  dopp := PrimFloat.opp; dsqrt := PrimFloat.sqrt; dfabs := PrimFloat.abs;
  dleb := PrimFloat.leb; deqb := PrimFloat.eqb
|}.

(** exact reals *)
Definition Rleb (a b : R) : bool := if Rle_dec a b then true else false.
Definition Reqb (a b : R) : bool := if Req_dec_T a b then true else false.

#[global] Instance R_Double : Double R := {|
  d0 := 0%R; d1 := 1%R; d2 := 2%R;
  dadd := Rplus; dsub := Rminus; dmul := Rmult; ddiv := Rdiv;
  dopp := Ropp; dsqrt := sqrt; dfabs := Rabs;
  dleb := Rleb; deqb := Reqb
|}.

(** ** Data *)

(** Modelled from the spec: [struct reb_vec3d] is declared in [rebound.h];
    its fields are the three components the code names. *)
Record reb_vec3d (T : Type) : Type := mk_vec3d { x : T; y : T; z : T }.
Arguments mk_vec3d {T} _ _ _.
Arguments x {T} _.
Arguments y {T} _.
Arguments z {T} _.

(** Modelled from the spec: [struct reb_rotation] is declared in
    [rebound.h]; a quaternion with imaginary part [(ix, iy, iz)] and real
    part [r]. *)
Record reb_rotation (T : Type) : Type :=
  mk_rotation { ix : T; iy : T; iz : T; r : T }.
Arguments mk_rotation {T} _ _ _ _.
Arguments ix {T} _.
Arguments iy {T} _.
Arguments iz {T} _.
Arguments r {T} _.

(** ** The arithmetic core *)

Section Core.
Context {T : Type} `{Double T}.
Local Open Scope double_scope.

(* reb_vec3d manipulation functions *)

Definition reb_vec3d_mul (v : reb_vec3d T) (s : T) : reb_vec3d T :=
  {| x := s * x v; y := s * y v; z := s * z v |}.

Definition reb_vec3d_add (v w : reb_vec3d T) : reb_vec3d T :=
  {| x := x v + x w; y := y v + y w; z := z v + z w |}.

Definition reb_vec3d_cross (a b : reb_vec3d T) : reb_vec3d T :=
  {| x := y a * z b - z a * y b;
     y := z a * x b - x a * z b;
     z := x a * y b - y a * x b |}.

Definition reb_vec3d_dot (a b : reb_vec3d T) : T :=
  x a * x b + y a * y b + z a * z b.

Definition reb_vec3d_length_squared (v : reb_vec3d T) : T :=
  reb_vec3d_dot v v.

Definition reb_vec3d_normalize (v : reb_vec3d T) : reb_vec3d T :=
  reb_vec3d_mul v (d1 / dsqrt (reb_vec3d_length_squared v)).

(* reb_rotation manipulation functions *)

Definition reb_rotation_imag (q : reb_rotation T) : reb_vec3d T :=
  {| x := ix q; y := iy q; z := iz q |}.

Definition reb_rotation_mul (p q : reb_rotation T) : reb_rotation T :=
  {| r  := r p * r q  - ix p * ix q - iy p * iy q - iz p * iz q;
     ix := r p * ix q + ix p * r q  + iy p * iz q - iz p * iy q;
     iy := r p * iy q - ix p * iz q + iy p * r q  + iz p * ix q;
     iz := r p * iz q + ix p * iy q - iy p * ix q + iz p * r q |}.

Definition reb_rotation_length_squared (q : reb_rotation T) : T :=
  r q * r q + ix q * ix q + iy q * iy q + iz q * iz q.

Definition reb_rotation_conjugate (q : reb_rotation T) : reb_rotation T :=
  {| ix := - ix q; iy := - iy q; iz := - iz q; r := r q |}.

Definition reb_rotation_inverse (q : reb_rotation T) : reb_rotation T :=
  let c := reb_rotation_conjugate q in
  let rl2 := d1 / reb_rotation_length_squared q in
  {| ix := ix c * rl2; iy := iy c * rl2; iz := iz c * rl2; r := r c * rl2 |}.

(* Object rotation functions *)

(** [reb_vec3d_irotate(&v, q)]: the new contents of [*v]. *)
Definition reb_vec3d_irotate (v : reb_vec3d T) (q : reb_rotation T)
  : reb_vec3d T :=
  let imag := reb_rotation_imag q in
  let t := reb_vec3d_mul (reb_vec3d_cross imag v) d2 in
  let res := reb_vec3d_add v
               (reb_vec3d_add (reb_vec3d_mul t (r q))
                              (reb_vec3d_cross imag t)) in
  {| x := x res; y := y res; z := z res |}.

(** [reb_vec3d_rotate] rotates a copy. *)
Definition reb_vec3d_rotate (v : reb_vec3d T) (q : reb_rotation T)
  : reb_vec3d T :=
  let r := v in reb_vec3d_irotate r q.

(* Alternate ways of initializing rotation *)

Definition reb_rotation_identity : reb_rotation T :=
  {| ix := d0; iy := d0; iz := d0; r := d1 |}.

Definition reb_rotation_init_from_to_reduced (from to : reb_vec3d T)
  : reb_rotation T :=
  let half := {| x := x from + x to; y := y from + y to;
                 z := z from + z to |} in
  let half := reb_vec3d_normalize half in
  let cross := reb_vec3d_cross from half in
  let dot := reb_vec3d_dot from half in
  {| ix := x cross; iy := y cross; iz := z cross; r := dot |}.

(** The body of the branch [if (reb_vec3d_length_squared(half) == 0)] of
    [reb_rotation_init_from_to] (lines 188-204); [from] is already
    normalised there. *)
Definition from_to_antipodal (from : reb_vec3d T) : reb_rotation T :=
  let abs_from := {| x := dfabs (x from); y := dfabs (y from);
                     z := dfabs (z from) |} in
  if (x abs_from <=? y abs_from) && (x abs_from <=? z abs_from) then
    let axis := {| x := d1; y := d0; z := d0 |} in
    let axis := reb_vec3d_cross from axis in
    {| ix := x axis; iy := y axis; iz := z axis; r := d0 |}
  else if y abs_from <=? z abs_from then
    let axis := {| x := d0; y := d1; z := d0 |} in
    let axis := reb_vec3d_cross from axis in
    {| ix := x axis; iy := y axis; iz := z axis; r := d0 |}
  else
    let axis := {| x := d0; y := d0; z := d1 |} in
    let axis := reb_vec3d_cross from axis in
    {| ix := x axis; iy := y axis; iz := z axis; r := d0 |}.

Definition reb_rotation_init_from_to (from to : reb_vec3d T)
  : reb_rotation T :=
  let from := reb_vec3d_normalize from in
  let to := reb_vec3d_normalize to in
  if reb_vec3d_dot from to >=? d0 then  (* small angle *)
    reb_rotation_init_from_to_reduced from to
  else
    (* More than 90 degrees apart: (from -> half), (half -> to) *)
    let half := {| x := x from + x to; y := y from + y to;
                   z := z from + z to |} in
    let half := reb_vec3d_normalize half in
    if reb_vec3d_length_squared half ==? d0 then
      from_to_antipodal from
    else
      reb_rotation_mul (reb_rotation_init_from_to_reduced from half)
                       (reb_rotation_init_from_to_reduced half to).

Definition reb_rotation_init_to_new_axes (newz newx : reb_vec3d T)
  : reb_rotation T :=
  let z := {| x := d0; y := d0; z := d1 |} in
  let q1 := reb_rotation_init_from_to newz z in
  let x := {| x := d1; y := d0; z := d0 |} in
  let newx := reb_vec3d_irotate newx q1 in
  let q2 := reb_rotation_init_from_to newx x in
  reb_rotation_mul q2 q1.

End Core.

(** ** Particles and simulations

    [struct reb_particle] and [struct reb_simulation] are declared in
    [rebound.h]; this file only touches the fields below. *)

Module Particle.
(** Modelled from the spec: the declaration of [struct reb_particle]
    (rebound.h) is missing.  The six position and velocity fields are the
    ones the code names; [other] stands for every other field of the
    struct. *)
Record reb_particle (T Other : Type) : Type :=
  mk { x : T; y : T; z : T; vx : T; vy : T; vz : T; other : Other }.
Arguments mk {T Other} _ _ _ _ _ _ _.
Arguments x {T Other} _.
Arguments y {T Other} _.
Arguments z {T Other} _.
Arguments vx {T Other} _.
Arguments vy {T Other} _.
Arguments vz {T Other} _.
Arguments other {T Other} _.
End Particle.

Module Simulation.
(** Modelled from the spec: the declaration of [struct reb_simulation]
    (rebound.h) is missing.  [N] is the [int] count, [particles] the array
    behind the pointer of that name, [other] every other field. *)
Record reb_simulation (T Other SimOther : Type) : Type :=
  mk { N : Z;
       particles : list (Particle.reb_particle T Other);
       other : SimOther }.
Arguments mk {T Other SimOther} _ _ _.
Arguments N {T Other SimOther} _.
Arguments particles {T Other SimOther} _.
Arguments other {T Other SimOther} _.
End Simulation.

Section Objects.
Context {T : Type} `{Double T} {Other SimOther : Type}.

(** [reb_particle_irotate(p, q)]: the new contents of [*p]. *)
Definition reb_particle_irotate (p : Particle.reb_particle T Other)
    (q : reb_rotation T) : Particle.reb_particle T Other :=
  let pos := {| x := Particle.x p; y := Particle.y p; z := Particle.z p |} in
  let pos := reb_vec3d_irotate pos q in
  let p := Particle.mk (x pos) (y pos) (z pos)
             (Particle.vx p) (Particle.vy p) (Particle.vz p)
             (Particle.other p) in
  let vel := {| x := Particle.vx p; y := Particle.vy p;
                z := Particle.vz p |} in
  let vel := reb_vec3d_irotate vel q in
  Particle.mk (Particle.x p) (Particle.y p) (Particle.z p)
              (x vel) (y vel) (z vel) (Particle.other p).

(** The store [a[i] = f(a[i])]; an index past the end of the array is
    outside what the model covers and leaves the list as it is. *)
Fixpoint array_modify {A : Type} (f : A -> A) (i : nat) (a : list A)
  : list A :=
  match a, i with
  | [], _ => []
  | p :: a', O => f p :: a'
  | p :: a', S i' => p :: array_modify f i' a'
  end.

(** [for (int i = i0; i < i0 + n; i++) reb_particle_irotate(&ps[i], q);] *)
Fixpoint irotate_loop (n : nat) (i : nat)
    (ps : list (Particle.reb_particle T Other)) (q : reb_rotation T)
  : list (Particle.reb_particle T Other) :=
  match n with
  | O => ps
  | S n' =>
      irotate_loop n' (S i)
        (array_modify (fun p => reb_particle_irotate p q) i ps) q
  end.

(** [reb_simulation_irotate(sim, q)]: the new contents of [*sim]. *)
Definition reb_simulation_irotate
    (sim : Simulation.reb_simulation T Other SimOther) (q : reb_rotation T)
  : Simulation.reb_simulation T Other SimOther :=
  let N := Simulation.N sim in
  Simulation.mk (Simulation.N sim)
    (irotate_loop (Z.to_nat N) 0 (Simulation.particles sim) q)
    (Simulation.other sim).

End Objects.

(** ** The functions that call libm, over the reals *)

Section Libm.
Local Open Scope R_scope.

Definition Rltb (a b : R) : bool := if Rlt_dec a b then true else false.

(** [atan2(y, x)]: the angle of the point [(x, y)], in [(-PI, PI]]; [0] at
    the origin, as in C. *)
Definition atan2 (y x : R) : R :=
  if Rlt_dec 0 x then atan (y / x)
  else if Rlt_dec x 0 then
    if Rle_dec 0 y then atan (y / x) + PI else atan (y / x) - PI
  else if Rlt_dec 0 y then PI / 2
  else if Rlt_dec y 0 then - (PI / 2)
  else 0.

Definition M_PI : R := PI.

Definition reb_rotation_init_angle_axis (angle : R) (axis : reb_vec3d R)
  : reb_rotation R :=
  let axis := reb_vec3d_normalize axis in
  let cos2 := cos (angle / 2) in
  let sin2 := sin (angle / 2) in
  let imag := reb_vec3d_mul axis sin2 in
  {| ix := x imag; iy := y imag; iz := z imag; r := cos2 |}.

Definition reb_rotation_init_orbital (Omega inc omega : R) : reb_rotation R :=
  (* Murray and Dermot Eq. 2.121 (left hand side) *)
  let x := {| x := 1; y := 0; z := 0 |} in
  let z := {| x := 0; y := 0; z := 1 |} in
  let P1 := reb_rotation_init_angle_axis omega z in
  let P2 := reb_rotation_init_angle_axis inc x in
  let P3 := reb_rotation_init_angle_axis Omega z in
  reb_rotation_mul P3 (reb_rotation_mul P2 P1).

Definition MIN_INC : R := 1 / 10 ^ 8.

(** The three output parameters of [reb_rotation_to_orbital]. *)
Record orbital_angles : Type :=
  mk_orbital { Omega : R; inc : R; omega : R }.

Definition reb_rotation_to_orbital (q : reb_rotation R) : orbital_angles :=
  let ap := r q in
  let bp := iz q in
  let cp := ix q in
  let dp := iy q in
  let inc := acos (2 * (ap * ap + bp * bp) - 1) in
  let safe1 := Rltb MIN_INC (Rabs inc) in
  let safe2 := Rltb MIN_INC (Rabs (inc - M_PI)) in
  let '(Omega, omega) :=
    if safe1 && safe2 then
      let half_sum := atan2 bp ap in
      let half_diff := atan2 dp cp in
      (half_sum + half_diff, half_sum - half_diff)
    else
      (0, if negb safe1 then
            let half_sum := atan2 bp ap in 2 * half_sum
          else
            let half_diff := atan2 dp cp in 2 * half_diff) in
  let omega := if Rltb omega 0 then omega + M_PI * 2 else omega in
  let Omega := if Rltb Omega 0 then Omega + M_PI * 2 else Omega in
  {| Omega := Omega; inc := inc; omega := omega |}.

End Libm.

(** ** The functions that call libm, for any scalar type

    [math.h] is not part of the repository.  Its functions, the constant
    [M_PI], the literal [1.e-8] and the comparison [<] are the fields of
    [MathH]; the definitions of [WithLibm] are the same three functions as
    above, written once for every scalar type that provides them.  Over
    binary64 this leaves libm itself unspecified: what a theorem needs of
    it is a hypothesis of that theorem. *)

Class MathH (T : Type) : Type := {
  m_cos : T -> T;
  m_sin : T -> T;
  m_acos : T -> T;
  m_atan2 : T -> T -> T;      (* atan2(y, x) *)
  m_PI : T;                   (* M_PI *)
  m_1em8 : T;                 (* the literal 1.e-8 *)
  m_ltb : T -> T -> bool      (* a < b *)
}.

Module WithLibm.
Section Defs.
Context {T : Type} `{Double T} `{MathH T}.
Local Open Scope double_scope.

Definition reb_rotation_init_angle_axis (angle : T) (axis : reb_vec3d T)
  : reb_rotation T :=
  let axis := reb_vec3d_normalize axis in
  let cos2 := m_cos (angle / d2) in
  let sin2 := m_sin (angle / d2) in
  let imag := reb_vec3d_mul axis sin2 in
  {| ix := x imag; iy := y imag; iz := z imag; r := cos2 |}.

Definition reb_rotation_init_orbital (Omega inc omega : T) : reb_rotation T :=
  let x := {| x := d1; y := d0; z := d0 |} in
  let z := {| x := d0; y := d0; z := d1 |} in
  let P1 := reb_rotation_init_angle_axis omega z in
  let P2 := reb_rotation_init_angle_axis inc x in
  let P3 := reb_rotation_init_angle_axis Omega z in
  reb_rotation_mul P3 (reb_rotation_mul P2 P1).

Definition MIN_INC : T := m_1em8.

(** The final [if (a < 0) a += M_PI*2.0;] *)
Definition wrap_negative (a : T) : T :=
  if m_ltb a d0 then a + m_PI * d2 else a.

(** [reb_rotation_to_orbital(q, &Omega, &inc, &omega)]: the three values
    stored, as [(Omega, inc, omega)]. *)
Definition reb_rotation_to_orbital (q : reb_rotation T) : T * T * T :=
  let ap := r q in
  let bp := iz q in
  let cp := ix q in
  let dp := iy q in
  let inc := m_acos (d2 * (ap * ap + bp * bp) - d1) in
  let safe1 := m_ltb MIN_INC (dfabs inc) in
  let safe2 := m_ltb MIN_INC (dfabs (inc - m_PI)) in
  let '(Omega, omega) :=
    if safe1 && safe2 then
      let half_sum := m_atan2 bp ap in
      let half_diff := m_atan2 dp cp in
      (half_sum + half_diff, half_sum - half_diff)
    else
      (d0, if negb safe1 then
             let half_sum := m_atan2 bp ap in d2 * half_sum
           else
             let half_diff := m_atan2 dp cp in d2 * half_diff) in
  let omega := wrap_negative omega in
  let Omega := wrap_negative Omega in
  (Omega, inc, omega).

End Defs.
End WithLibm.

(** exact reals, with the mathematical functions *)
#[global] Instance R_MathH : MathH R := {|
  m_cos := cos; m_sin := sin; m_acos := acos; m_atan2 := atan2;
  m_PI := PI; m_1em8 := (1 / 10 ^ 8)%R; m_ltb := Rltb
|}.

(** binary64, with a libm given by its four functions; [M_PI] and [1.e-8]
    are the doubles nearest to the decimal constants. *)
Definition f64_MathH (c_cos c_sin c_acos : float -> float)
    (c_atan2 : float -> float -> float) : MathH float := {|
  m_cos := c_cos; m_sin := c_sin; m_acos := c_acos; m_atan2 := c_atan2;
  m_PI := 0x1.921fb54442d18p+1%float;
  m_1em8 := 0x1.5798ee2308c3ap-27%float;
  m_ltb := PrimFloat.ltb
|}.

(** * Vocabulary of the properties *)

Section RealVocabulary.
Local Open Scope R_scope.

Definition unit_rotation (q : reb_rotation R) : Prop :=
  reb_rotation_length_squared q = 1.

Definition unit_vec3d (v : reb_vec3d R) : Prop :=
  reb_vec3d_length_squared v = 1.

Definition zero_vec3d : reb_vec3d R := {| x := 0; y := 0; z := 0 |}.

Definition world_x : reb_vec3d R := {| x := 1; y := 0; z := 0 |}.

Definition world_z : reb_vec3d R := {| x := 0; y := 0; z := 1 |}.

Definition world_axes : list (reb_vec3d R) :=
  [ {| x := 1; y := 0; z := 0 |};
    {| x := 0; y := 1; z := 0 |};
    {| x := 0; y := 0; z := 1 |} ].

Definition normalized_sum (a b : reb_vec3d R) : reb_vec3d R :=
  reb_vec3d_add (reb_vec3d_normalize a) (reb_vec3d_normalize b).

(** [b] points exactly opposite to [a]. *)
Definition opposite (a b : reb_vec3d R) : Prop :=
  exists k : R, k < 0 /\ b = reb_vec3d_mul a k.

Definition about_z (q : reb_rotation R) : Prop := ix q = 0 /\ iy q = 0.

(** [axis] is a world axis along which [v] has its smallest absolute
    component. *)
Definition smallest_component_axis (v axis : reb_vec3d R) : Prop :=
  In axis world_axes
  /\ Rabs (reb_vec3d_dot v axis) <= Rabs (x v)
  /\ Rabs (reb_vec3d_dot v axis) <= Rabs (y v)
  /\ Rabs (reb_vec3d_dot v axis) <= Rabs (z v).

(** What the antipodal branch returns on [from]: [r = 0] and a nonzero
    imaginary part, the cross product of [from] with such an axis. *)
Definition antipodal_branch_ok (from : reb_vec3d R) : Prop :=
  r (from_to_antipodal from) = 0
  /\ reb_rotation_imag (from_to_antipodal from) <> zero_vec3d
  /\ exists axis,
      smallest_component_axis from axis
      /\ reb_rotation_imag (from_to_antipodal from)
         = reb_vec3d_cross from axis.

Definition world_y : reb_vec3d R := {| x := 0; y := 1; z := 0 |}.

(** The quaternion [- q], which encodes the same rotation as [q]. *)
Definition negated (q : reb_rotation R) : reb_rotation R :=
  {| ix := - ix q; iy := - iy q; iz := - iz q; r := - r q |}.

(** The final step: a negative angle is shifted by [2 * PI]. *)
Definition wrap_negative (a : R) : R :=
  if Rltb a 0 then a + M_PI * 2 else a.

End RealVocabulary.

Section ObjectVocabulary.
Context {T : Type} {Other : Type}.

Definition position (p : Particle.reb_particle T Other) : reb_vec3d T :=
  {| x := Particle.x p; y := Particle.y p; z := Particle.z p |}.

Definition velocity (p : Particle.reb_particle T Other) : reb_vec3d T :=
  {| x := Particle.vx p; y := Particle.vy p; z := Particle.vz p |}.

End ObjectVocabulary.

(** binary64 values *)

Definition f64_vec3d (a b c : float) : reb_vec3d float := mk_vec3d a b c.

Definition is_nan_vec3d (v : reb_vec3d float) : bool :=
  PrimFloat.is_nan (x v) && PrimFloat.is_nan (y v) && PrimFloat.is_nan (z v).

Definition is_nan_rotation (q : reb_rotation float) : bool :=
  PrimFloat.is_nan (ix q) && PrimFloat.is_nan (iy q)
  && PrimFloat.is_nan (iz q) && PrimFloat.is_nan (r q).

(** The two binary64 zeros. *)
Definition f64_zero (negative : bool) : float :=
  if negative then (-0)%float else 0%float.

(** A libm tabulated on the few arguments the examples below need, with the
    values glibc returns there, and NaN everywhere else; [acos] fails above
    [1] as C's does. *)
Definition table_cos (a : float) : float :=
  if PrimFloat.eqb a 0x1p-1 then 0x1.c1528065b7d50p-1%float
  else if PrimFloat.eqb a 1 then 0x1.14a280fb5068cp-1%float
  else if PrimFloat.eqb a 0x1.5798ee2308c3ap-27 then 1%float
  else nan.

Definition table_sin (a : float) : float :=
  if PrimFloat.eqb a 0x1p-1 then 0x1.eaee8744b05f0p-2%float
  else if PrimFloat.eqb a 1 then 0x1.aed548f090ceep-1%float
  else if PrimFloat.eqb a 0x1.5798ee2308c3ap-27
       then 0x1.5798ee2308c3ap-27%float
  else nan.

Definition table_acos (a : float) : float :=
  if PrimFloat.ltb 1 a then nan
  else if PrimFloat.eqb a 1 then 0%float
  else nan.

Definition table_atan2 (b a : float) : float :=
  if PrimFloat.eqb b 0x1.feb7a9b2c6d8cp-1
     && PrimFloat.eqb a 0x1.21bd54fc5f9acp-4
  then 0x1.8p+0%float else nan.

(** [|u - v| < tol] on every component. *)
Definition within (tol : float) (u v : reb_vec3d float) : bool :=
  PrimFloat.ltb (PrimFloat.abs (PrimFloat.sub (x u) (x v))) tol
  && PrimFloat.ltb (PrimFloat.abs (PrimFloat.sub (y u) (y v))) tol
  && PrimFloat.ltb (PrimFloat.abs (PrimFloat.sub (z u) (z v))) tol.

(** * Properties *)

(** ** Exact arithmetic: vectors and quaternions over [R] *)

Ltac core_unfold :=
  cbv [unit_rotation unit_vec3d zero_vec3d
       reb_vec3d_rotate reb_vec3d_irotate
       reb_rotation_mul reb_rotation_inverse reb_rotation_conjugate
       reb_rotation_identity reb_rotation_length_squared reb_rotation_imag
       reb_vec3d_add reb_vec3d_mul reb_vec3d_cross reb_vec3d_length_squared
       reb_vec3d_dot x y z ix iy iz r
       dadd dsub dmul ddiv dopp dsqrt dfabs dleb deqb d0 d1 d2 R_Double] in *.

Section RealModel.
Local Open Scope R_scope.

Lemma vec3d_eq (a b : reb_vec3d R) :
  x a = x b -> y a = y b -> z a = z b -> a = b.
Proof. destruct a, b; cbn; intros; subst; reflexivity. Qed.

Lemma rotation_eq (p q : reb_rotation R) :
  ix p = ix q -> iy p = iy q -> iz p = iz q -> r p = r q -> p = q.
Proof. destruct p, q; cbn; intros; subst; reflexivity. Qed.


(** *** Comparisons *)

Lemma Rleb_true (a b : R) : Rleb a b = true <-> a <= b.
Proof. unfold Rleb; destruct (Rle_dec a b); split; intros; try easy. Qed.

Lemma Rleb_false (a b : R) : Rleb a b = false <-> b < a.
Proof.
  unfold Rleb; destruct (Rle_dec a b); split; intros; try easy; lra.
Qed.

Lemma Reqb_true (a b : R) : Reqb a b = true <-> a = b.
Proof. unfold Reqb; destruct (Req_dec_T a b); split; intros; try easy. Qed.

Lemma Reqb_false (a b : R) : Reqb a b = false <-> a <> b.
Proof. unfold Reqb; destruct (Req_dec_T a b); split; intros; try easy. Qed.

Lemma Rltb_true (a b : R) : Rltb a b = true <-> a < b.
Proof. unfold Rltb; destruct (Rlt_dec a b); split; intros; try easy. Qed.

Lemma Rltb_false (a b : R) : Rltb a b = false <-> b <= a.
Proof.
  unfold Rltb; destruct (Rlt_dec a b); split; intros; try easy; lra.
Qed.

(** *** Lengths and normalisation *)

Lemma length_squared_nonneg (v : reb_vec3d R) :
  0 <= reb_vec3d_length_squared v.
Proof. destruct v as [a b c]; core_unfold; nra. Qed.

Lemma length_squared_pos (v : reb_vec3d R) :
  v <> zero_vec3d -> 0 < reb_vec3d_length_squared v.
Proof.
  destruct v as [a b c]; intros Hv.
  destruct (Rle_lt_dec (reb_vec3d_length_squared (mk_vec3d a b c)) 0)
    as [Hle|]; [exfalso | assumption].
  apply Hv. core_unfold.
  assert (a = 0) by nra. assert (b = 0) by nra. assert (c = 0) by nra.
  subst; reflexivity.
Qed.

Lemma inv_sqrt_sq (L : R) :
  0 < L -> (1 / sqrt L) * (1 / sqrt L) * L = 1.
Proof.
  intros HL. pose proof (sqrt_lt_R0 L HL) as Hs.
  pose proof (sqrt_sqrt L (Rlt_le _ _ HL)) as Hq.
  rewrite <- Hq at 3. field. lra.
Qed.

Lemma inv_sqrt_pos (L : R) : 0 < L -> 0 < 1 / sqrt L.
Proof.
  intros HL. pose proof (sqrt_lt_R0 L HL).
  apply Rdiv_lt_0_compat; lra.
Qed.

Lemma normalize_unit (v : reb_vec3d R) :
  v <> zero_vec3d -> unit_vec3d (reb_vec3d_normalize v).
Proof.
  intros Hv. pose proof (inv_sqrt_sq _ (length_squared_pos v Hv)) as Hs.
  unfold reb_vec3d_normalize, unit_vec3d.
  set (s := 1 / sqrt (reb_vec3d_length_squared v)) in *.
  change (d1 / dsqrt (reb_vec3d_length_squared v))%dbl with s.
  destruct v as [a b c]; core_unfold.
  rewrite <- Hs; ring.
Qed.

Lemma normalize_of_unit (v : reb_vec3d R) :
  unit_vec3d v -> reb_vec3d_normalize v = v.
Proof.
  unfold unit_vec3d, reb_vec3d_normalize; intros Hv. rewrite Hv.
  change (d1 / dsqrt 1)%dbl with (1 / sqrt 1). rewrite sqrt_1.
  destruct v as [a b c]; apply vec3d_eq; core_unfold; field.
Qed.

Lemma unit_vec3d_nonzero (v : reb_vec3d R) : unit_vec3d v -> v <> zero_vec3d.
Proof. intros Hv ->. core_unfold. lra. Qed.

(** *** Composition of rotations *)

(** Without the unit-norm assumption, the rotation by a product and the
    two successive rotations differ by terms that carry a factor
    [1 - |p|^2] or [1 - |q|^2]. *)
Lemma rotate_mul_defect (v : reb_vec3d R) (p q : reb_rotation R) :
  let P := reb_rotation_length_squared p in
  let Q := reb_rotation_length_squared q in
  reb_vec3d_rotate v (reb_rotation_mul p q)
  = reb_vec3d_add (reb_vec3d_rotate (reb_vec3d_rotate v q) p)
      (reb_vec3d_add
         (reb_vec3d_mul v ((1 - P * Q) + (1 - P) * (1 - Q)))
         (reb_vec3d_add
            (reb_vec3d_mul (reb_vec3d_rotate v p) (- (1 - Q)))
            (reb_vec3d_mul (reb_vec3d_rotate v q) (- (1 - P))))).
Proof.
  destruct v as [vx vy vz], p as [px py pz pr], q as [qx qy qz qr].
  apply vec3d_eq; core_unfold; ring.
Qed.

Lemma rotate_mul (v : reb_vec3d R) (p q : reb_rotation R) :
  unit_rotation p -> unit_rotation q ->
  reb_vec3d_rotate v (reb_rotation_mul p q)
  = reb_vec3d_rotate (reb_vec3d_rotate v q) p.
Proof.
  intros Hp Hq. rewrite rotate_mul_defect. cbv zeta.
  unfold unit_rotation in *. rewrite Hp, Hq.
  apply vec3d_eq; cbv [reb_vec3d_add reb_vec3d_mul x y z dadd dmul R_Double];
    ring.
Qed.

Lemma mul_length_squared (p q : reb_rotation R) :
  reb_rotation_length_squared (reb_rotation_mul p q)
  = reb_rotation_length_squared p * reb_rotation_length_squared q.
Proof. destruct p, q; core_unfold; ring. Qed.

Lemma mul_unit (p q : reb_rotation R) :
  unit_rotation p -> unit_rotation q -> unit_rotation (reb_rotation_mul p q).
Proof.
  unfold unit_rotation; intros Hp Hq.
  rewrite mul_length_squared, Hp, Hq; ring.
Qed.

(** *** The half-vector construction *)

(** Rotating a unit [f] by [(cross f h, dot f h)], [h] a unit vector,
    reflects [f] through [h]. *)
Lemma rotate_half_vector (f h : reb_vec3d R) :
  unit_vec3d f -> unit_vec3d h ->
  let c := reb_vec3d_cross f h in
  reb_vec3d_rotate f
    {| ix := x c; iy := y c; iz := z c; r := reb_vec3d_dot f h |}
  = reb_vec3d_add (reb_vec3d_mul h (2 * reb_vec3d_dot f h))
                  (reb_vec3d_mul f (-1)).
Proof.
  destruct f as [fx fy fz], h as [hx hy hz]; intros Hf Hh; cbv zeta.
  core_unfold.
  set (F := fx * fx + fy * fy + fz * fz) in *.
  set (Hn := hx * hx + hy * hy + hz * hz) in *.
  set (d := fx * hx + fy * hy + fz * hz).
  apply vec3d_eq; cbv [x y z].
  - transitivity (fx + 2 * d * F * hx - 2 * F * Hn * fx);
      [unfold F, Hn, d; ring | rewrite Hf, Hh; ring].
  - transitivity (fy + 2 * d * F * hy - 2 * F * Hn * fy);
      [unfold F, Hn, d; ring | rewrite Hf, Hh; ring].
  - transitivity (fz + 2 * d * F * hz - 2 * F * Hn * fz);
      [unfold F, Hn, d; ring | rewrite Hf, Hh; ring].
Qed.

(** The quaternion [(cross f h, dot f h)] of two unit vectors is a unit
    quaternion (Lagrange's identity). *)
Lemma half_vector_unit (f h : reb_vec3d R) :
  unit_vec3d f -> unit_vec3d h ->
  let c := reb_vec3d_cross f h in
  unit_rotation
    {| ix := x c; iy := y c; iz := z c; r := reb_vec3d_dot f h |}.
Proof.
  destruct f as [fx fy fz], h as [hx hy hz]; intros Hf Hh; cbv zeta.
  core_unfold.
  transitivity ((fx * fx + fy * fy + fz * fz) * (hx * hx + hy * hy + hz * hz));
    [ring | rewrite Hf, Hh; ring].
Qed.

(** Two unit vectors that do not cancel have [1 + dot f t > 0]. *)
Lemma sum_length_squared (f t : reb_vec3d R) :
  unit_vec3d f -> unit_vec3d t ->
  reb_vec3d_length_squared (reb_vec3d_add f t) = 2 + 2 * reb_vec3d_dot f t.
Proof.
  destruct f as [fx fy fz], t as [tx ty tz]; intros Hf Ht. core_unfold.
  transitivity ((fx * fx + fy * fy + fz * fz) + (tx * tx + ty * ty + tz * tz)
                + 2 * (fx * tx + fy * ty + fz * tz));
    [ring | rewrite Hf, Ht; ring].
Qed.

Lemma reduced_half (from to : reb_vec3d R) :
  reb_rotation_init_from_to_reduced from to
  = let h := reb_vec3d_normalize (reb_vec3d_add from to) in
    let c := reb_vec3d_cross from h in
    {| ix := x c; iy := y c; iz := z c; r := reb_vec3d_dot from h |}.
Proof. reflexivity. Qed.

Lemma reduced_unit (f t : reb_vec3d R) :
  unit_vec3d f -> unit_vec3d t -> reb_vec3d_add f t <> zero_vec3d ->
  unit_rotation (reb_rotation_init_from_to_reduced f t).
Proof.
  intros Hf Ht Hne. rewrite reduced_half. cbv zeta.
  apply half_vector_unit; [assumption | apply normalize_unit; assumption].
Qed.

Lemma reduced_rotate (f t : reb_vec3d R) :
  unit_vec3d f -> unit_vec3d t -> reb_vec3d_add f t <> zero_vec3d ->
  reb_vec3d_rotate f (reb_rotation_init_from_to_reduced f t) = t.
Proof.
  intros Hf Ht Hne. rewrite reduced_half. cbv zeta.
  rewrite rotate_half_vector;
    [ | assumption | apply normalize_unit; assumption].
  pose proof (inv_sqrt_sq _ (length_squared_pos _ Hne)) as Hs.
  rewrite (sum_length_squared f t Hf Ht) in Hs.
  unfold reb_vec3d_normalize.
  rewrite (sum_length_squared f t Hf Ht).
  destruct f as [fx fy fz], t as [tx ty tz]. core_unfold.
  set (s := 1 / sqrt _) in *.
  set (F := fx * fx + fy * fy + fz * fz) in *.
  set (c := fx * tx + fy * ty + fz * tz) in *.
  assert (Hk : 2 * (s * s) * (F + c) = 1) by (rewrite Hf; lra).
  apply vec3d_eq; cbv [x y z].
  - transitivity (2 * (s * s) * (F + c) * (fx + tx) - fx);
      [unfold F, c; ring | rewrite Hk; ring].
  - transitivity (2 * (s * s) * (F + c) * (fy + ty) - fy);
      [unfold F, c; ring | rewrite Hk; ring].
  - transitivity (2 * (s * s) * (F + c) * (fz + tz) - fz);
      [unfold F, c; ring | rewrite Hk; ring].
Qed.

(** *** [reb_rotation_init_from_to] away from the antipodal case *)

Lemma cross_add_self (f h : reb_vec3d R) (s : R) :
  reb_vec3d_cross f (reb_vec3d_mul (reb_vec3d_add f h) s)
  = reb_vec3d_mul (reb_vec3d_cross f h) s.
Proof. destruct f, h; apply vec3d_eq; core_unfold; ring. Qed.

Lemma dot_add_self (f h : reb_vec3d R) (s : R) :
  reb_vec3d_dot f (reb_vec3d_mul (reb_vec3d_add f h) s)
  = s * (reb_vec3d_length_squared f + reb_vec3d_dot f h).
Proof. destruct f, h; core_unfold; ring. Qed.

Lemma add_nonzero_of_dot (f t : reb_vec3d R) :
  unit_vec3d f -> unit_vec3d t -> -1 < reb_vec3d_dot f t ->
  reb_vec3d_add f t <> zero_vec3d.
Proof.
  intros Hf Ht Hd E. pose proof (sum_length_squared f t Hf Ht) as HL.
  rewrite E in HL. change (reb_vec3d_length_squared zero_vec3d)
    with (0 * 0 + 0 * 0 + 0 * 0) in HL. lra.
Qed.

Lemma dot_of_add_nonzero (f t : reb_vec3d R) :
  unit_vec3d f -> unit_vec3d t -> reb_vec3d_add f t <> zero_vec3d ->
  -1 < reb_vec3d_dot f t.
Proof.
  intros Hf Ht Hne. pose proof (length_squared_pos _ Hne) as HL.
  rewrite (sum_length_squared f t Hf Ht) in HL. lra.
Qed.

(** The normalised bisector [h] of two unit vectors makes the same angle
    with both, on the same axis. *)
Lemma bisector (f t : reb_vec3d R) :
  unit_vec3d f -> unit_vec3d t -> reb_vec3d_add f t <> zero_vec3d ->
  let h := reb_vec3d_normalize (reb_vec3d_add f t) in
  reb_vec3d_dot f h = reb_vec3d_dot h t
  /\ 0 < reb_vec3d_dot f h
  /\ reb_vec3d_cross f h = reb_vec3d_cross h t.
Proof.
  intros Hf Ht Hne; cbv zeta.
  pose proof (dot_of_add_nonzero f t Hf Ht Hne) as Hc.
  pose proof (inv_sqrt_pos _ (length_squared_pos _ Hne)) as Hs.
  unfold reb_vec3d_normalize.
  destruct f as [fx fy fz], t as [tx ty tz]. core_unfold.
  set (s := 1 / sqrt _) in *.
  assert (E1 : fx * (s * (fx + tx)) + fy * (s * (fy + ty))
               + fz * (s * (fz + tz))
               = s * (1 + (fx * tx + fy * ty + fz * tz))).
  { rewrite <- Hf; ring. }
  assert (E2 : s * (fx + tx) * tx + s * (fy + ty) * ty + s * (fz + tz) * tz
               = s * (1 + (fx * tx + fy * ty + fz * tz))).
  { rewrite <- Ht; ring. }
  repeat split.
  - rewrite E1, E2; reflexivity.
  - rewrite E1. apply Rmult_lt_0_compat; lra.
  - apply vec3d_eq; cbv [x y z]; ring.
Qed.

Lemma reduced_bisector (f t : reb_vec3d R) :
  unit_vec3d f -> unit_vec3d t -> reb_vec3d_add f t <> zero_vec3d ->
  let h := reb_vec3d_normalize (reb_vec3d_add f t) in
  reb_rotation_init_from_to_reduced f h
  = reb_rotation_init_from_to_reduced h t.
Proof.
  intros Hf Ht Hne h.
  assert (Hh : unit_vec3d h) by (apply normalize_unit; assumption).
  destruct (bisector f t Hf Ht Hne) as (Hd & _ & Hx). fold h in Hd, Hx.
  rewrite !reduced_half; cbv zeta. unfold reb_vec3d_normalize.
  rewrite (sum_length_squared f h Hf Hh), (sum_length_squared h t Hh Ht).
  rewrite <- Hd.
  rewrite !cross_add_self, !dot_add_self, <- Hx, <- Hd.
  unfold unit_vec3d in Hf, Hh. rewrite Hf, Hh. reflexivity.
Qed.

Lemma from_to_small_angle (a b : reb_vec3d R) :
  0 <= reb_vec3d_dot (reb_vec3d_normalize a) (reb_vec3d_normalize b) ->
  reb_rotation_init_from_to a b
  = reb_rotation_init_from_to_reduced
      (reb_vec3d_normalize a) (reb_vec3d_normalize b).
Proof.
  intros Hd. unfold reb_rotation_init_from_to; cbv zeta.
  change (@dleb R R_Double) with Rleb. change (@d0 R R_Double) with 0.
  apply Rleb_true in Hd. rewrite Hd. reflexivity.
Qed.

Lemma from_to_large_angle (a b : reb_vec3d R) :
  a <> zero_vec3d -> b <> zero_vec3d ->
  reb_vec3d_dot (reb_vec3d_normalize a) (reb_vec3d_normalize b) < 0 ->
  normalized_sum a b <> zero_vec3d ->
  reb_rotation_init_from_to a b
  = let h := reb_vec3d_normalize (normalized_sum a b) in
    reb_rotation_mul
      (reb_rotation_init_from_to_reduced (reb_vec3d_normalize a) h)
      (reb_rotation_init_from_to_reduced h (reb_vec3d_normalize b)).
Proof.
  intros Ha Hb Hd Hne. unfold reb_rotation_init_from_to; cbv zeta.
  change (@dleb R R_Double) with Rleb. change (@deqb R R_Double) with Reqb.
  change (@d0 R R_Double) with 0.
  apply Rleb_false in Hd. rewrite Hd.
  pose proof (normalize_unit _ Hne) as Hh. unfold normalized_sum in *.
  unfold unit_vec3d in Hh.
  match goal with |- (if Reqb ?l 0 then _ else _) = _ =>
    change l with (reb_vec3d_length_squared
      (reb_vec3d_normalize (reb_vec3d_add (reb_vec3d_normalize a)
                                          (reb_vec3d_normalize b)))) end.
  assert (Hz : Reqb (reb_vec3d_length_squared
      (reb_vec3d_normalize (reb_vec3d_add (reb_vec3d_normalize a)
                                          (reb_vec3d_normalize b)))) 0 = false).
  { apply Reqb_false. rewrite Hh. lra. }
  rewrite Hz. reflexivity.
Qed.

Lemma from_to_regular (a b : reb_vec3d R) :
  a <> zero_vec3d -> b <> zero_vec3d -> normalized_sum a b <> zero_vec3d ->
  reb_vec3d_rotate (reb_vec3d_normalize a) (reb_rotation_init_from_to a b)
  = reb_vec3d_normalize b
  /\ unit_rotation (reb_rotation_init_from_to a b).
Proof.
  intros Ha Hb Hne.
  pose proof (normalize_unit a Ha) as Hf.
  pose proof (normalize_unit b Hb) as Ht.
  set (f := reb_vec3d_normalize a) in *.
  set (t := reb_vec3d_normalize b) in *.
  destruct (Rle_lt_dec 0 (reb_vec3d_dot f t)) as [Hd | Hd].
  - rewrite (from_to_small_angle a b Hd). fold f t. split.
    + apply reduced_rotate; assumption.
    + apply reduced_unit; assumption.
  - rewrite (from_to_large_angle a b Ha Hb Hd Hne). cbv zeta.
    unfold normalized_sum in *. fold f t in Hne |- *.
    set (h := reb_vec3d_normalize (reb_vec3d_add f t)).
    assert (Hh : unit_vec3d h) by (apply normalize_unit; assumption).
    destruct (bisector f t Hf Ht Hne) as (Hfh & Hpos & _). fold h in Hfh, Hpos.
    assert (Hne1 : reb_vec3d_add f h <> zero_vec3d)
      by (apply add_nonzero_of_dot; try assumption; lra).
    assert (Hne2 : reb_vec3d_add h t <> zero_vec3d)
      by (apply add_nonzero_of_dot; try assumption; lra).
    pose proof (reduced_unit f h Hf Hh Hne1) as Hu1.
    pose proof (reduced_unit h t Hh Ht Hne2) as Hu2.
    split; [ | apply mul_unit; assumption].
    rewrite (rotate_mul _ _ _ Hu1 Hu2).
    pose proof (reduced_bisector f t Hf Ht Hne) as Hq.
    cbv zeta in Hq. fold h in Hq.
    rewrite <- Hq, (reduced_rotate f h Hf Hh Hne1), Hq.
    apply reduced_rotate; assumption.
Qed.

Lemma normalized_sum_zero_opposite (a b : reb_vec3d R) :
  a <> zero_vec3d -> b <> zero_vec3d ->
  normalized_sum a b = zero_vec3d -> opposite a b.
Proof.
  intros Ha Hb E.
  pose proof (inv_sqrt_pos _ (length_squared_pos a Ha)) as Hsa.
  pose proof (inv_sqrt_pos _ (length_squared_pos b Hb)) as Hsb.
  unfold normalized_sum, reb_vec3d_normalize in E.
  change (d1 / dsqrt (reb_vec3d_length_squared a))%dbl
    with (1 / sqrt (reb_vec3d_length_squared a)) in E.
  change (d1 / dsqrt (reb_vec3d_length_squared b))%dbl
    with (1 / sqrt (reb_vec3d_length_squared b)) in E.
  set (sa := 1 / sqrt (reb_vec3d_length_squared a)) in *.
  set (sb := 1 / sqrt (reb_vec3d_length_squared b)) in *.
  clearbody sa sb.
  destruct a as [ax ay az], b as [bx by' bz].
  injection E as Ex Ey Ez. core_unfold.
  exists (- (sa / sb)). split.
  - assert (0 < sa / sb) by (apply Rdiv_lt_0_compat; assumption). lra.
  - apply vec3d_eq; core_unfold.
    + replace bx with ((sb * bx) / sb) by (field; lra).
      replace (sb * bx) with (- (sa * ax)) by lra. field; lra.
    + replace by' with ((sb * by') / sb) by (field; lra).
      replace (sb * by') with (- (sa * ay)) by lra. field; lra.
    + replace bz with ((sb * bz) / sb) by (field; lra).
      replace (sb * bz) with (- (sa * az)) by lra. field; lra.
Qed.

(** Conversely, exactly opposite vectors have normalisations that cancel:
    these are the inputs on which [half] is the zero vector before it is
    normalised. *)
Lemma opposite_normalized_sum_zero (a b : reb_vec3d R) :
  a <> zero_vec3d -> opposite a b -> normalized_sum a b = zero_vec3d.
Proof.
  intros Ha (k & Hk & ->).
  pose proof (length_squared_pos a Ha) as HL.
  pose proof (sqrt_lt_R0 _ HL) as Hs.
  unfold normalized_sum, reb_vec3d_normalize.
  assert (EL : reb_vec3d_length_squared (reb_vec3d_mul a k)
               = (- k) * (- k) * reb_vec3d_length_squared a).
  { destruct a; core_unfold; ring. }
  rewrite EL.
  change (dsqrt (- k * - k * reb_vec3d_length_squared a))
    with (sqrt (- k * - k * reb_vec3d_length_squared a)).
  rewrite sqrt_mult by nra. rewrite sqrt_square by lra.
  change (dsqrt (reb_vec3d_length_squared a))
    with (sqrt (reb_vec3d_length_squared a)).
  set (s := sqrt (reb_vec3d_length_squared a)) in *. clearbody s.
  destruct a as [ax ay az].
  apply vec3d_eq; core_unfold; field; lra.
Qed.

(** *** The antipodal branch *)

(** The branch returns [r = 0] and the cross product of [from] with a world
    axis along which [from] has its smallest absolute component. *)
Lemma from_to_antipodal_axis (from : reb_vec3d R) :
  r (from_to_antipodal from) = 0
  /\ exists axis,
      In axis world_axes
      /\ reb_rotation_imag (from_to_antipodal from)
         = reb_vec3d_cross from axis
      /\ Rabs (reb_vec3d_dot from axis) <= Rabs (x from)
      /\ Rabs (reb_vec3d_dot from axis) <= Rabs (y from)
      /\ Rabs (reb_vec3d_dot from axis) <= Rabs (z from).
Proof.
  destruct from as [fx fy fz]. unfold from_to_antipodal; cbv zeta.
  cbv [x y z dfabs dleb R_Double].
  destruct (Rleb (Rabs fx) (Rabs fy)) eqn:Exy;
    [destruct (Rleb (Rabs fx) (Rabs fz)) eqn:Exz | ]; cbn [andb].
  1: { apply Rleb_true in Exy, Exz. split; [reflexivity | ].
       exists {| x := 1; y := 0; z := 0 |}.
       split; [cbn; auto | ]. split; [reflexivity | ].
       core_unfold.
       replace (fx * 1 + fy * 0 + fz * 0) with fx by ring. lra. }
  all: destruct (Rleb (Rabs fy) (Rabs fz)) eqn:Eyz.
  all: try apply Rleb_true in Exy; try apply Rleb_false in Exy.
  all: try apply Rleb_true in Exz; try apply Rleb_false in Exz.
  all: try apply Rleb_true in Eyz; try apply Rleb_false in Eyz.
  all: (split; [reflexivity | ]).
  1, 3: exists {| x := 0; y := 1; z := 0 |}.
  3, 4: exists {| x := 0; y := 0; z := 1 |}.
  all: (split; [cbn; auto | ]); (split; [reflexivity | ]); core_unfold.
  1, 2: replace (fx * 0 + fy * 1 + fz * 0) with fy by ring; lra.
  all: replace (fx * 0 + fy * 0 + fz * 1) with fz by ring; lra.
Qed.

Lemma from_to_antipodal_nonzero (from : reb_vec3d R) :
  from <> zero_vec3d ->
  reb_rotation_imag (from_to_antipodal from) <> zero_vec3d.
Proof.
  intros Hne.
  destruct (from_to_antipodal_axis from)
    as (_ & axis & Hin & -> & Hx & Hy & Hz).
  destruct from as [fx fy fz]. cbv [x y z] in *.
  assert (Hnz : 0 < Rabs fx \/ 0 < Rabs fy \/ 0 < Rabs fz).
  { destruct (Req_dec fx 0) as [-> | Hfx];
      [ | left; apply Rabs_pos_lt; assumption].
    destruct (Req_dec fy 0) as [-> | Hfy];
      [ | right; left; apply Rabs_pos_lt; assumption].
    destruct (Req_dec fz 0) as [-> | Hfz];
      [ | right; right; apply Rabs_pos_lt; assumption].
    exfalso; apply Hne; reflexivity. }
  cbn in Hin. intros E.
  destruct Hin as [<- | [<- | [<- | []]]]; core_unfold;
    injection E as E1 E2 E3.
  - replace (fx * 1 + fy * 0 + fz * 0) with fx in * by ring.
    assert (fz = 0) by lra. assert (fy = 0) by lra. subst.
    rewrite Rabs_R0 in *. lra.
  - replace (fx * 0 + fy * 1 + fz * 0) with fy in * by ring.
    assert (fz = 0) by lra. assert (fx = 0) by lra. subst.
    rewrite Rabs_R0 in *. lra.
  - replace (fx * 0 + fy * 0 + fz * 1) with fz in * by ring.
    assert (fy = 0) by lra. assert (fx = 0) by lra. subst.
    rewrite Rabs_R0 in *. lra.
Qed.

(** The imaginary part is used as it is, not normalised, and the image of
    [from] by the returned quaternion then depends on its length: on the
    unit vector [(2/3, 2/3, 1/3)] the branch returns [(2/3, -2/3, 0)] with
    [r = 0], which sends [from] to [-7/9 * from], not to [- from]. *)
Lemma from_to_antipodal_not_half_turn :
  let from := {| x := 2 / 3; y := 2 / 3; z := 1 / 3 |} in
  from_to_antipodal from
  = {| ix := 2 / 3; iy := - (2 / 3); iz := 0; r := 0 |}
  /\ reb_vec3d_rotate from (from_to_antipodal from)
     = reb_vec3d_mul from (- (7 / 9)).
Proof.
  cbv zeta.
  assert (E : from_to_antipodal {| x := 2 / 3; y := 2 / 3; z := 1 / 3 |}
              = {| ix := 2 / 3; iy := - (2 / 3); iz := 0; r := 0 |}).
  { unfold from_to_antipodal; cbv zeta. cbv [x y z dfabs dleb R_Double].
    rewrite !Rabs_pos_eq by lra.
    replace (Rleb (2 / 3) (2 / 3)) with true
      by (symmetry; apply Rleb_true; lra).
    replace (Rleb (2 / 3) (1 / 3)) with false
      by (symmetry; apply Rleb_false; lra).
    cbn [andb]. apply rotation_eq; core_unfold; field. }
  rewrite E. split; [reflexivity | ].
  apply vec3d_eq; core_unfold; field.
Qed.

(** *** Inverse *)

Lemma mul_inverse (q : reb_rotation R) :
  reb_rotation_length_squared q <> 0 ->
  reb_rotation_mul q (reb_rotation_inverse q) = reb_rotation_identity.
Proof.
  destruct q as [qx qy qz qr]; intros Hq.
  apply rotation_eq; core_unfold; field; exact Hq.
Qed.

(** *** [atan2] *)

Lemma atan2_bound (y0 x0 : R) : - PI < atan2 y0 x0 <= PI.
Proof.
  pose proof PI_RGT_0 as Hpi. unfold atan2.
  pose proof (atan_bound (y0 / x0)) as [Hl Hu].
  destruct (Rlt_dec 0 x0) as [Hx | Hx]; [lra | ].
  destruct (Rlt_dec x0 0) as [Hx' | Hx'].
  - destruct (Rle_dec 0 y0) as [Hy | Hy].
    + assert (y0 / x0 <= 0).
      { unfold Rdiv. apply Rinv_lt_0_compat in Hx'. nra. }
      assert (atan (y0 / x0) <= 0).
      { destruct (Req_dec (y0 / x0) 0) as [-> | Hn];
          [rewrite atan_0; lra | ].
        rewrite <- atan_0. left. apply atan_increasing. lra. }
      lra.
    + assert (0 < y0 / x0).
      { unfold Rdiv. apply Rinv_lt_0_compat in Hx'. nra. }
      assert (0 < atan (y0 / x0))
        by (rewrite <- atan_0; apply atan_increasing; assumption).
      lra.
  - destruct (Rlt_dec 0 y0); [lra | ]. destruct (Rlt_dec y0 0); lra.
Qed.

(** [atan2 y x] is a polar angle of the point [(x, y)]. *)
Lemma atan2_polar (y0 x0 : R) :
  x0 <> 0 \/ y0 <> 0 ->
  exists rho, 0 < rho
    /\ x0 = rho * cos (atan2 y0 x0) /\ y0 = rho * sin (atan2 y0 x0).
Proof.
  intros Hnz. unfold atan2.
  pose proof (atan_bound (y0 / x0)) as [Hl Hu].
  assert (Hc : 0 < cos (atan (y0 / x0))) by (apply cos_gt_0; lra).
  assert (Ht : sin (atan (y0 / x0)) = y0 / x0 * cos (atan (y0 / x0))).
  { rewrite <- (tan_atan (y0 / x0)) at 2. unfold tan. field. lra. }
  destruct (Rlt_dec 0 x0) as [Hx | Hx].
  - exists (x0 / cos (atan (y0 / x0))). repeat split.
    + apply Rdiv_lt_0_compat; assumption.
    + field; lra.
    + rewrite Ht. field; lra.
  - destruct (Rlt_dec x0 0) as [Hx' | Hx'].
    + exists (- x0 / cos (atan (y0 / x0))).
      assert (Hr : 0 < - x0 / cos (atan (y0 / x0)))
        by (apply Rdiv_lt_0_compat; lra).
      destruct (Rle_dec 0 y0) as [Hy | Hy]; repeat split; try assumption.
      * rewrite neg_cos. field; lra.
      * rewrite neg_sin, Ht. field; lra.
      * unfold Rminus. rewrite cos_plus, cos_neg, sin_neg, cos_PI, sin_PI.
        field; lra.
      * unfold Rminus. rewrite sin_plus, cos_neg, sin_neg, cos_PI, sin_PI, Ht.
        field; lra.
    + assert (x0 = 0) by lra. subst x0.
      destruct (Rlt_dec 0 y0) as [Hy | Hy].
      * exists y0. rewrite cos_PI2, sin_PI2. repeat split; lra.
      * destruct (Rlt_dec y0 0) as [Hy' | Hy'].
        -- exists (- y0). rewrite cos_neg, sin_neg, cos_PI2, sin_PI2.
           repeat split; lra.
        -- exfalso. destruct Hnz; lra.
Qed.

Lemma cos_1_period (d : R) :
  cos d = 1 -> exists k : Z, d = 2 * IZR k * PI.
Proof.
  intros Hc. replace d with (2 * (d / 2)) in Hc by field.
  rewrite cos_2a_sin in Hc.
  assert (Hs : sin (d / 2) = 0) by nra.
  destruct (sin_eq_0_0 _ Hs) as [k Hk]. exists k. lra.
Qed.

(** On a point given in polar form, [atan2] returns the angle up to a
    multiple of [2 * PI]. *)
Lemma atan2_of_polar (rho theta : R) :
  0 < rho ->
  exists k : Z,
    atan2 (rho * sin theta) (rho * cos theta) = theta + 2 * IZR k * PI.
Proof.
  intros Hrho.
  set (y0 := rho * sin theta). set (x0 := rho * cos theta).
  pose proof (sin2_cos2 theta) as Hsc. unfold Rsqr in Hsc.
  assert (Hnz : x0 <> 0 \/ y0 <> 0).
  { destruct (Req_dec (cos theta) 0) as [Hc0 | Hc0].
    - right. unfold y0. rewrite Hc0 in Hsc. nra.
    - left. unfold x0. nra. }
  destruct (atan2_polar y0 x0 Hnz) as (rho' & Hrho' & Hx & Hy).
  set (alpha := atan2 y0 x0) in *.
  pose proof (sin2_cos2 alpha) as Hsa. unfold Rsqr in Hsa.
  assert (Hsq : rho' * rho' = rho * rho).
  { transitivity (x0 * x0 + y0 * y0).
    - rewrite Hx, Hy. transitivity
        (rho' * rho' * (sin alpha * sin alpha + cos alpha * cos alpha));
        [rewrite Hsa; ring | ring].
    - unfold x0, y0. transitivity
        (rho * rho * (sin theta * sin theta + cos theta * cos theta));
        [ring | rewrite Hsc; ring]. }
  assert (Heq : rho' = rho) by nra. subst rho'.
  assert (Hcos : cos alpha = cos theta).
  { apply (Rmult_eq_reg_l rho); [ | lra]. rewrite <- Hx. reflexivity. }
  assert (Hsin : sin alpha = sin theta).
  { apply (Rmult_eq_reg_l rho); [ | lra]. rewrite <- Hy. reflexivity. }
  destruct (cos_1_period (alpha - theta)) as [k Hk].
  { rewrite cos_minus, Hcos, Hsin. lra. }
  exists k. lra.
Qed.

(** *** Angle-axis and orbital constructors *)

Lemma identity_unit : unit_rotation reb_rotation_identity.
Proof. core_unfold; ring. Qed.

Lemma angle_axis_unit (angle : R) (axis : reb_vec3d R) :
  axis <> zero_vec3d ->
  unit_rotation (reb_rotation_init_angle_axis angle axis).
Proof.
  intros Hax. pose proof (normalize_unit axis Hax) as Hn.
  unfold reb_rotation_init_angle_axis; cbv zeta.
  destruct (reb_vec3d_normalize axis) as [nx ny nz].
  pose proof (sin2_cos2 (angle / 2)) as Hsc. unfold Rsqr in Hsc.
  core_unfold.
  transitivity (cos (angle / 2) * cos (angle / 2)
                + sin (angle / 2) * sin (angle / 2)
                  * (nx * nx + ny * ny + nz * nz));
    [ring | rewrite Hn; lra].
Qed.

Lemma angle_axis_z (angle : R) :
  reb_rotation_init_angle_axis angle {| x := 0; y := 0; z := 1 |}
  = {| ix := 0; iy := 0; iz := sin (angle / 2); r := cos (angle / 2) |}.
Proof.
  unfold reb_rotation_init_angle_axis; cbv zeta.
  rewrite normalize_of_unit by (core_unfold; ring).
  apply rotation_eq; core_unfold; ring.
Qed.

Lemma angle_axis_x (angle : R) :
  reb_rotation_init_angle_axis angle {| x := 1; y := 0; z := 0 |}
  = {| ix := sin (angle / 2); iy := 0; iz := 0; r := cos (angle / 2) |}.
Proof.
  unfold reb_rotation_init_angle_axis; cbv zeta.
  rewrite normalize_of_unit by (core_unfold; ring).
  apply rotation_eq; core_unfold; ring.
Qed.

Lemma init_orbital_unit (Omega0 inc0 omega0 : R) :
  unit_rotation (reb_rotation_init_orbital Omega0 inc0 omega0).
Proof.
  unfold reb_rotation_init_orbital; cbv zeta.
  assert (Hz : {| x := 0; y := 0; z := 1 |} <> zero_vec3d)
    by (intros E; injection E; lra).
  assert (Hx : {| x := 1; y := 0; z := 0 |} <> zero_vec3d)
    by (intros E; injection E; lra).
  apply mul_unit; [ | apply mul_unit]; apply angle_axis_unit; assumption.
Qed.

(** The components of the 3-1-3 product. *)
Lemma init_orbital_components (Omega0 inc0 omega0 : R) :
  reb_rotation_init_orbital Omega0 inc0 omega0
  = {| ix := sin (inc0 / 2) * cos ((Omega0 - omega0) / 2);
       iy := sin (inc0 / 2) * sin ((Omega0 - omega0) / 2);
       iz := cos (inc0 / 2) * sin ((Omega0 + omega0) / 2);
       r  := cos (inc0 / 2) * cos ((Omega0 + omega0) / 2) |}.
Proof.
  unfold reb_rotation_init_orbital; cbv zeta.
  rewrite !angle_axis_z, angle_axis_x.
  replace ((Omega0 - omega0) / 2) with (Omega0 / 2 - omega0 / 2) by field.
  replace ((Omega0 + omega0) / 2) with (Omega0 / 2 + omega0 / 2) by field.
  rewrite cos_minus, sin_minus, cos_plus, sin_plus.
  apply rotation_eq; core_unfold; ring.
Qed.

(** *** Orbital angle extraction *)

Lemma MIN_INC_pos : 0 < MIN_INC.
Proof. unfold MIN_INC. lra. Qed.

Lemma wrap_negative_bound (a : R) :
  - (2 * PI) <= a <= 2 * PI -> 0 <= wrap_negative a <= 2 * PI.
Proof.
  intros [Hl Hu]. unfold wrap_negative, M_PI.
  destruct (Rltb a 0) eqn:E;
    [apply Rltb_true in E | apply Rltb_false in E]; lra.
Qed.

Lemma wrap_negative_period (a : R) :
  exists k : Z, wrap_negative a = a + 2 * IZR k * PI.
Proof.
  unfold wrap_negative, M_PI. destruct (Rltb a 0).
  - exists 1%Z. lra.
  - exists 0%Z. lra.
Qed.

Lemma to_orbital_wrap (q : reb_rotation R) :
  exists O o,
    Omega (reb_rotation_to_orbital q) = wrap_negative O
    /\ omega (reb_rotation_to_orbital q) = wrap_negative o
    /\ - (2 * PI) <= O <= 2 * PI /\ - (2 * PI) <= o <= 2 * PI.
Proof.
  unfold reb_rotation_to_orbital; cbv zeta.
  pose proof PI_RGT_0 as Hpi.
  pose proof (atan2_bound (iz q) (r q)) as Hs.
  pose proof (atan2_bound (iy q) (ix q)) as Hd.
  destruct (Rltb MIN_INC _ && Rltb MIN_INC _).
  - eexists _, _. cbn [Omega omega]. unfold wrap_negative.
    split; [reflexivity | ]. split; [reflexivity | ]. lra.
  - destruct (negb _); eexists _, _; cbn [Omega omega]; unfold wrap_negative;
      (split; [reflexivity | ]); (split; [reflexivity | ]); lra.
Qed.

Lemma to_orbital_regular (q : reb_rotation R) :
  let i := acos (2 * (r q * r q + iz q * iz q) - 1) in
  MIN_INC < i < PI - MIN_INC ->
  reb_rotation_to_orbital q
  = {| Omega := wrap_negative (atan2 (iz q) (r q) + atan2 (iy q) (ix q));
       inc := i;
       omega := wrap_negative (atan2 (iz q) (r q) - atan2 (iy q) (ix q)) |}.
Proof.
  intros i [Hl Hu]. pose proof MIN_INC_pos as Hm.
  unfold reb_rotation_to_orbital; cbv zeta. fold i.
  assert (E1 : Rltb MIN_INC (Rabs i) = true).
  { apply Rltb_true. rewrite Rabs_pos_eq; lra. }
  assert (E2 : Rltb MIN_INC (Rabs (i - M_PI)) = true).
  { apply Rltb_true. unfold M_PI. rewrite Rabs_left; lra. }
  rewrite E1, E2. reflexivity.
Qed.

(** *** Rotations are linear isometries *)

Lemma irotate_rotate (v : reb_vec3d R) (q : reb_rotation R) :
  reb_vec3d_irotate v q = reb_vec3d_rotate v q.
Proof. reflexivity. Qed.

Lemma rotate_scale (v : reb_vec3d R) (q : reb_rotation R) (s : R) :
  reb_vec3d_rotate (reb_vec3d_mul v s) q
  = reb_vec3d_mul (reb_vec3d_rotate v q) s.
Proof. destruct v, q; apply vec3d_eq; core_unfold; ring. Qed.

Lemma rotate_dot_defect (u v : reb_vec3d R) (q : reb_rotation R) :
  reb_vec3d_dot (reb_vec3d_rotate u q) (reb_vec3d_rotate v q)
  = reb_vec3d_dot u v
    + (reb_rotation_length_squared q - 1)
      * (2 * reb_vec3d_dot u v - reb_vec3d_dot (reb_vec3d_rotate u q) v
         - reb_vec3d_dot u (reb_vec3d_rotate v q)).
Proof. destruct u, v, q; core_unfold; ring. Qed.

Lemma rotate_dot (u v : reb_vec3d R) (q : reb_rotation R) :
  unit_rotation q ->
  reb_vec3d_dot (reb_vec3d_rotate u q) (reb_vec3d_rotate v q)
  = reb_vec3d_dot u v.
Proof.
  intros Hq. rewrite rotate_dot_defect. unfold unit_rotation in Hq.
  rewrite Hq. ring.
Qed.

Lemma rotate_length_squared (v : reb_vec3d R) (q : reb_rotation R) :
  unit_rotation q ->
  reb_vec3d_length_squared (reb_vec3d_rotate v q)
  = reb_vec3d_length_squared v.
Proof. intros Hq. apply rotate_dot; assumption. Qed.

Lemma rotate_normalize (v : reb_vec3d R) (q : reb_rotation R) :
  unit_rotation q ->
  reb_vec3d_normalize (reb_vec3d_rotate v q)
  = reb_vec3d_rotate (reb_vec3d_normalize v) q.
Proof.
  intros Hq. unfold reb_vec3d_normalize.
  rewrite rotate_length_squared by assumption.
  rewrite rotate_scale. reflexivity.
Qed.

Lemma rotate_nonzero (v : reb_vec3d R) (q : reb_rotation R) :
  unit_rotation q -> v <> zero_vec3d -> reb_vec3d_rotate v q <> zero_vec3d.
Proof.
  intros Hq Hv E. pose proof (length_squared_pos v Hv) as HL.
  rewrite <- (rotate_length_squared v q Hq), E in HL.
  change (reb_vec3d_length_squared zero_vec3d)
    with (0 * 0 + 0 * 0 + 0 * 0) in HL. lra.
Qed.

(** *** Rotations about the world z-axis *)

Lemma about_z_fixes_z (q : reb_rotation R) :
  about_z q ->
  reb_vec3d_rotate {| x := 0; y := 0; z := 1 |} q
  = {| x := 0; y := 0; z := 1 |}.
Proof.
  destruct q as [qx qy qz qr]; intros [Hx Hy]; cbn in Hx, Hy; subst.
  apply vec3d_eq; core_unfold; ring.
Qed.

Lemma mul_about_z (p q : reb_rotation R) :
  about_z p -> about_z q -> about_z (reb_rotation_mul p q).
Proof.
  destruct p as [px py pz pr], q as [qx qy qz qr].
  intros [Hpx Hpy] [Hqx Hqy]; cbn in *; subst.
  split; core_unfold; ring.
Qed.

Lemma reduced_about_z (f t : reb_vec3d R) :
  z f = 0 -> z t = 0 -> about_z (reb_rotation_init_from_to_reduced f t).
Proof.
  destruct f as [fx fy fz], t as [tx ty tz]; cbn [z]; intros -> ->.
  rewrite reduced_half; cbv zeta. unfold reb_vec3d_normalize.
  set (s := (d1 / dsqrt _)%dbl). clearbody s.
  split; core_unfold; ring.
Qed.

Lemma normalize_z (v : reb_vec3d R) : z v = 0 -> z (reb_vec3d_normalize v) = 0.
Proof.
  destruct v as [a b c]; cbn [z]; intros ->. unfold reb_vec3d_normalize.
  set (s := (d1 / dsqrt _)%dbl). clearbody s. core_unfold; ring.
Qed.

Lemma from_to_about_z (a b : reb_vec3d R) :
  a <> zero_vec3d -> b <> zero_vec3d -> normalized_sum a b <> zero_vec3d ->
  z a = 0 -> z b = 0 -> about_z (reb_rotation_init_from_to a b).
Proof.
  intros Ha Hb Hne Hza Hzb.
  pose proof (normalize_z a Hza) as Hzf.
  pose proof (normalize_z b Hzb) as Hzt.
  destruct (Rle_lt_dec 0 (reb_vec3d_dot (reb_vec3d_normalize a)
                                        (reb_vec3d_normalize b))) as [Hd | Hd].
  - rewrite (from_to_small_angle a b Hd).
    apply reduced_about_z; assumption.
  - rewrite (from_to_large_angle a b Ha Hb Hd Hne); cbv zeta.
    assert (Hzh : z (reb_vec3d_normalize (normalized_sum a b)) = 0).
    { apply normalize_z. unfold normalized_sum, reb_vec3d_add.
      cbn [z]. change (@dadd R R_Double) with Rplus.
      rewrite Hzf, Hzt. ring. }
    apply mul_about_z; apply reduced_about_z; assumption.
Qed.

(** *** [reb_rotation_init_to_new_axes] *)

Lemma not_opposite_sum (a b : reb_vec3d R) :
  a <> zero_vec3d -> b <> zero_vec3d -> ~ opposite a b ->
  normalized_sum a b <> zero_vec3d.
Proof.
  intros Ha Hb Hno E. apply Hno.
  apply normalized_sum_zero_opposite; assumption.
Qed.

Lemma dot_world_z (v : reb_vec3d R) : reb_vec3d_dot v world_z = z v.
Proof. destruct v; core_unfold; cbv [world_z]; ring. Qed.

Lemma dot_normalize_r (u v : reb_vec3d R) :
  reb_vec3d_dot u v = 0 -> reb_vec3d_dot u (reb_vec3d_normalize v) = 0.
Proof.
  unfold reb_vec3d_normalize. set (s := (d1 / dsqrt _)%dbl). clearbody s.
  destruct u as [a b c], v as [d e f]. core_unfold. intros Hd.
  transitivity (s * (a * d + b * e + c * f)); [ring | rewrite Hd; ring].
Qed.

(** *** Concrete values *)

Lemma from_to_same (a : reb_vec3d R) :
  unit_vec3d a -> reb_rotation_init_from_to a a = reb_rotation_identity.
Proof.
  intros Ha. rewrite from_to_small_angle; rewrite (normalize_of_unit a Ha).
  2: { change (reb_vec3d_dot a a) with (reb_vec3d_length_squared a).
       rewrite Ha. lra. }
  rewrite reduced_half; cbv zeta. unfold reb_vec3d_normalize.
  rewrite (sum_length_squared a a Ha Ha).
  change (reb_vec3d_dot a a) with (reb_vec3d_length_squared a). rewrite Ha.
  replace (2 + 2 * 1) with (2 * 2) by ring.
  change (d1 / dsqrt (2 * 2))%dbl with (1 / sqrt (2 * 2)).
  rewrite sqrt_square by lra.
  destruct a as [ax ay az]. unfold unit_vec3d in Ha.
  apply rotation_eq; core_unfold; [ring | ring | ring | ].
  transitivity (ax * ax + ay * ay + az * az); [field | exact Ha].
Qed.

Lemma rotate_identity (v : reb_vec3d R) :
  reb_vec3d_rotate v reb_rotation_identity = v.
Proof. destruct v; apply vec3d_eq; core_unfold; ring. Qed.

Lemma not_opposite_self (a : reb_vec3d R) :
  a <> zero_vec3d -> ~ opposite a a.
Proof.
  intros Ha (k & Hk & E). apply Ha. destruct a as [ax ay az].
  injection E as Ex Ey Ez. core_unfold.
  assert (ax = 0) by nra. assert (ay = 0) by nra. assert (az = 0) by nra.
  subst; reflexivity.
Qed.

Lemma atan2_neg_axis (x0 : R) : x0 < 0 -> atan2 0 x0 = PI.
Proof.
  intros Hx. unfold atan2.
  destruct (Rlt_dec 0 x0); [lra | ].
  destruct (Rlt_dec x0 0); [ | lra].
  destruct (Rle_dec 0 0); [ | lra].
  replace (0 / x0) with 0 by (field; lra). rewrite atan_0. ring.
Qed.

Lemma PI_gt_3 : 3 < PI.
Proof. pose proof PI2_3_2. lra. Qed.

Lemma acos_minus_half : acos (-1 / 2) = 2 * PI / 3.
Proof.
  replace (-1 / 2) with (- (1 / 2)) by field.
  rewrite acos_opp, <- cos_PI3, acos_cos; [field | ].
  pose proof PI_RGT_0. lra.
Qed.

Lemma to_orbital_zero_inc (q : reb_rotation R) :
  acos (2 * (r q * r q + iz q * iz q) - 1) = 0 ->
  reb_rotation_to_orbital q
  = {| Omega := wrap_negative 0; inc := 0;
       omega := wrap_negative (2 * atan2 (iz q) (r q)) |}.
Proof.
  intros Hi. pose proof MIN_INC_pos as Hm.
  unfold reb_rotation_to_orbital; cbv zeta. rewrite Hi.
  assert (E1 : Rltb MIN_INC (Rabs 0) = false).
  { apply Rltb_false. rewrite Rabs_R0. lra. }
  rewrite E1. reflexivity.
Qed.

End RealModel.

(** ** Particles and simulations, for any scalar type *)

Section ObjectProperties.
Context {T : Type} `{Double T} {Other SimOther : Type}.

Lemma particle_irotate_frame (p : Particle.reb_particle T Other)
    (q : reb_rotation T) :
  position (reb_particle_irotate p q) = reb_vec3d_irotate (position p) q
  /\ velocity (reb_particle_irotate p q) = reb_vec3d_irotate (velocity p) q
  /\ Particle.other (reb_particle_irotate p q) = Particle.other p.
Proof. destruct p; repeat split. Qed.

Lemma array_modify_length {A : Type} (f : A -> A) (i : nat) (a : list A) :
  length (array_modify f i a) = length a.
Proof.
  revert i; induction a as [ | p a IH]; intros [ | i]; cbn;
    try reflexivity. rewrite IH; reflexivity.
Qed.

Lemma array_modify_nth {A : Type} (f : A -> A) (i j : nat) (a : list A) :
  nth_error (array_modify f i a) j
  = if Nat.eqb j i then option_map f (nth_error a j) else nth_error a j.
Proof.
  revert i j; induction a as [ | p a IH]; intros i j.
  - assert (Hnil : forall k, nth_error (@nil A) k = None)
      by (intros [ | k]; reflexivity).
    replace (array_modify f i []) with (@nil A) by (destruct i; reflexivity).
    rewrite Hnil. destruct (Nat.eqb j i); reflexivity.
  - destruct i as [ | i], j as [ | j]; cbn; try reflexivity.
    apply IH.
Qed.

Lemma irotate_loop_length (n i : nat)
    (ps : list (Particle.reb_particle T Other)) (q : reb_rotation T) :
  length (irotate_loop n i ps q) = length ps.
Proof.
  revert i ps; induction n as [ | n IH]; intros i ps; cbn;
    [reflexivity | ]. rewrite IH. apply array_modify_length.
Qed.

(** After [n] iterations from index [i], exactly the particles at
    [i .. i + n - 1] have been rotated, once each. *)
Lemma irotate_loop_nth (n i j : nat)
    (ps : list (Particle.reb_particle T Other)) (q : reb_rotation T) :
  nth_error (irotate_loop n i ps q) j
  = if Nat.leb i j && Nat.ltb j (i + n)
    then option_map (fun p => reb_particle_irotate p q) (nth_error ps j)
    else nth_error ps j.
Proof.
  revert i ps; induction n as [ | n IH]; intros i ps; cbn [irotate_loop].
  - destruct (Nat.leb_spec i j), (Nat.ltb_spec j (i + 0)); cbn;
      try reflexivity; lia.
  - rewrite IH, array_modify_nth.
    destruct (Nat.eqb_spec j i) as [-> | Hne].
    + replace (Nat.leb (S i) i) with false
        by (symmetry; apply Nat.leb_gt; lia).
      rewrite Nat.leb_refl.
      replace (Nat.ltb i (i + S n)) with true
        by (symmetry; apply Nat.ltb_lt; lia).
      reflexivity.
    + destruct (Nat.leb_spec (S i) j), (Nat.leb_spec i j),
        (Nat.ltb_spec j (S i + n)), (Nat.ltb_spec j (i + S n));
        cbn; try reflexivity; lia.
Qed.

Lemma simulation_irotate_frame
    (sim : Simulation.reb_simulation T Other SimOther) (q : reb_rotation T) :
  let sim' := reb_simulation_irotate sim q in
  Simulation.N sim' = Simulation.N sim
  /\ Simulation.other sim' = Simulation.other sim
  /\ length (Simulation.particles sim') = length (Simulation.particles sim)
  /\ forall j : nat,
      nth_error (Simulation.particles sim') j
      = if (Z.of_nat j <? Simulation.N sim)%Z
        then option_map (fun p => reb_particle_irotate p q)
               (nth_error (Simulation.particles sim) j)
        else nth_error (Simulation.particles sim) j.
Proof.
  cbv zeta. unfold reb_simulation_irotate; cbn.
  repeat split.
  - apply irotate_loop_length.
  - intros j. rewrite irotate_loop_nth.
    change (Nat.leb 0 j) with true. rewrite Nat.add_0_l. cbn [andb].
    destruct (Z.ltb_spec (Z.of_nat j) (Simulation.N sim)),
      (Nat.ltb_spec j (Z.to_nat (Simulation.N sim)));
      try reflexivity; lia.
Qed.

End ObjectProperties.

(** * The claims *)

Section Claims.
Local Open Scope R_scope.

(** C1 (code bug).  On the exactly antipodal unit inputs [(1,0,0)] and
    [(-1,0,0)], binary64 evaluation of [reb_rotation_init_from_to] does not
    reach the fallback-axis branch: [from + to] is [(0,0,0)], normalising it
    computes [0 * (1 / sqrt 0)], which is NaN, the test
    [reb_vec3d_length_squared(half) == 0] is false on NaN, and the two-stage
    product is returned.  Its real part is NaN, not [0], and the image of
    [(1,0,0)] is NaN, within no tolerance of [(-1,0,0)].  The branch itself,
    had it been reached, returns [((0,0,1), r = 0)], which sends [(1,0,0)]
    to [(-1,0,0)]. *)
Theorem from_to_antipodal_inputs_binary64 :
  let from := reb_vec3d_normalize (f64_vec3d 1 0 0) in
  let to := reb_vec3d_normalize (f64_vec3d (-1) 0 0) in
  let half := reb_vec3d_normalize (reb_vec3d_add from to) in
  let q := reb_rotation_init_from_to (f64_vec3d 1 0 0) (f64_vec3d (-1) 0 0) in
  is_nan_vec3d half = true
  /\ PrimFloat.eqb (reb_vec3d_length_squared half) 0 = false
  /\ is_nan_rotation q = true
  /\ PrimFloat.eqb (r q) 0 = false
  /\ is_nan_vec3d (reb_vec3d_rotate (f64_vec3d 1 0 0) q) = true
  /\ within 1 (reb_vec3d_rotate (f64_vec3d 1 0 0) q) (f64_vec3d (-1) 0 0)
     = false
  /\ from_to_antipodal from = mk_rotation 0%float 0%float 1%float 0%float
  /\ reb_vec3d_rotate (f64_vec3d 1 0 0) (from_to_antipodal from)
     = f64_vec3d (-1) 0 0.
Proof. vm_compute. repeat split. Qed.

(** C2, as stated, fails: on [newz = (0,1,0)], [newx = (1,0,0)] the rotation
    built by [reb_rotation_init_to_new_axes] sends the world z-axis to about
    [(0,-1,0)], away from [newz], and sends [newz] to the world z-axis; its
    first stage is [from_to(newz, worldZ)], the inverse of the
    [from_to(worldZ, newz)] of the claim (binary64 evaluation). *)
Lemma to_new_axes_world_z_binary64 :
  let newz := f64_vec3d 0 1 0 in
  let newx := f64_vec3d 1 0 0 in
  let world_z := f64_vec3d 0 0 1 in
  let world_x := f64_vec3d 1 0 0 in
  let q := reb_rotation_init_to_new_axes newz newx in
  let q1' := reb_rotation_init_from_to world_z newz in
  let claimed :=
    reb_rotation_mul
      (reb_rotation_init_from_to (reb_vec3d_rotate newx q1') world_x) q1' in
  within 0.5 (reb_vec3d_rotate world_z q) newz = false
  /\ within 0x1p-40 (reb_vec3d_rotate world_z q) (f64_vec3d 0 (-1) 0) = true
  /\ within 0x1p-40 (reb_vec3d_rotate newz q) world_z = true
  /\ PrimFloat.ltb 0.5 (ix q) = true
  /\ PrimFloat.ltb (ix claimed) (-0.5) = true.
Proof. vm_compute. repeat split. Qed.

(** C2, amended.  [reb_rotation_init_to_new_axes newz newx] is the product
    [q2 * q1] of [q1 = from_to(newz, worldZ)], applied first, and
    [q2 = from_to(newx', worldX)], where [newx'] is [newx] rotated by [q1].
    In exact arithmetic, when neither stage meets exactly opposite vectors:
    [q1] carries the normalised [newz] onto the world z-axis, the product
    carries the normalised [newx] onto the world x-axis, and, when [newx] is
    orthogonal to [newz], it carries the normalised [newz] onto the world
    z-axis. *)
Theorem to_new_axes_carries_new_axes_to_world_axes
    (newz newx : reb_vec3d R) :
  let q1 := reb_rotation_init_from_to newz world_z in
  let newx' := reb_vec3d_rotate newx q1 in
  let q2 := reb_rotation_init_from_to newx' world_x in
  let q := reb_rotation_init_to_new_axes newz newx in
  newz <> zero_vec3d -> newx <> zero_vec3d ->
  ~ opposite newz world_z -> ~ opposite newx' world_x ->
  q = reb_rotation_mul q2 q1
  /\ reb_vec3d_rotate (reb_vec3d_normalize newz) q1 = world_z
  /\ (forall v, reb_vec3d_rotate v q
                = reb_vec3d_rotate (reb_vec3d_rotate v q1) q2)
  /\ reb_vec3d_rotate (reb_vec3d_normalize newx) q = world_x
  /\ (reb_vec3d_dot newz newx = 0 ->
      reb_vec3d_rotate (reb_vec3d_normalize newz) q = world_z).
Proof.
  intros q1 newx' q2 q Hz Hx Hoz Hox.
  assert (Hq : q = reb_rotation_mul q2 q1) by reflexivity.
  assert (Hwz : unit_vec3d world_z) by (cbv [world_z]; core_unfold; ring).
  assert (Hwx : unit_vec3d world_x) by (cbv [world_x]; core_unfold; ring).
  pose proof (unit_vec3d_nonzero _ Hwz) as Hwz0.
  pose proof (unit_vec3d_nonzero _ Hwx) as Hwx0.
  destruct (from_to_regular newz world_z Hz Hwz0
              (not_opposite_sum _ _ Hz Hwz0 Hoz)) as [R1 U1].
  fold q1 in R1, U1. rewrite (normalize_of_unit _ Hwz) in R1.
  assert (Hx' : newx' <> zero_vec3d) by (apply rotate_nonzero; assumption).
  pose proof (not_opposite_sum _ _ Hx' Hwx0 Hox) as Hsum2.
  destruct (from_to_regular newx' world_x Hx' Hwx0 Hsum2) as [R2 U2].
  fold q2 in R2, U2. rewrite (normalize_of_unit _ Hwx) in R2.
  assert (Hcomp : forall v, reb_vec3d_rotate v q
                    = reb_vec3d_rotate (reb_vec3d_rotate v q1) q2).
  { intros v. rewrite Hq. apply rotate_mul; assumption. }
  repeat split; try assumption.
  - rewrite Hcomp, <- rotate_normalize by assumption. exact R2.
  - intros Hperp. rewrite Hcomp, R1.
    apply about_z_fixes_z. apply from_to_about_z; try assumption.
    + rewrite <- dot_world_z, <- R1. unfold newx'.
      rewrite rotate_dot by assumption.
      apply dot_normalize_r.
      destruct newz, newx; core_unfold; lra.
    + reflexivity.
Qed.

Lemma world_z_unit : unit_vec3d world_z.
Proof. cbv [world_z]; core_unfold; ring. Qed.

Lemma world_x_unit : unit_vec3d world_x.
Proof. cbv [world_x]; core_unfold; ring. Qed.

Lemma world_y_unit : unit_vec3d world_y.
Proof. cbv [world_y]; core_unfold; ring. Qed.

(** The first stage on [newz = (0,1,0)]: a quarter turn about the world
    x-axis, which leaves [newx = (1,0,0)] where it is. *)
Lemma from_to_y_z_about_x :
  let q1 := reb_rotation_init_from_to world_y world_z in
  iy q1 = 0 /\ iz q1 = 0 /\ reb_vec3d_rotate world_x q1 = world_x.
Proof.
  cbv zeta.
  assert (Hq : reb_rotation_init_from_to world_y world_z
               = reb_rotation_init_from_to_reduced world_y world_z).
  { rewrite from_to_small_angle;
      rewrite (normalize_of_unit _ world_y_unit),
              (normalize_of_unit _ world_z_unit);
      [reflexivity | cbv [world_y world_z]; core_unfold; lra]. }
  rewrite Hq, reduced_half; cbv zeta. unfold reb_vec3d_normalize.
  set (s := (d1 / dsqrt _)%dbl). clearbody s.
  repeat split; try apply vec3d_eq; cbv [world_x world_y world_z];
    core_unfold; ring.
Qed.

Lemma not_opposite_y_z : ~ opposite world_y world_z.
Proof.
  intros (k & Hk & E). apply (f_equal z) in E.
  cbv [world_y world_z] in E. core_unfold. lra.
Qed.

Lemma to_new_axes_carries_new_axes_to_world_axes_witness :
  let q1 := reb_rotation_init_from_to world_y world_z in
  let newx' := reb_vec3d_rotate world_x q1 in
  let q2 := reb_rotation_init_from_to newx' world_x in
  let q := reb_rotation_init_to_new_axes world_y world_x in
  q = reb_rotation_mul q2 q1
  /\ reb_vec3d_rotate (reb_vec3d_normalize world_y) q1 = world_z
  /\ (forall v, reb_vec3d_rotate v q
                = reb_vec3d_rotate (reb_vec3d_rotate v q1) q2)
  /\ reb_vec3d_rotate (reb_vec3d_normalize world_x) q = world_x
  /\ (reb_vec3d_dot world_y world_x = 0 ->
      reb_vec3d_rotate (reb_vec3d_normalize world_y) q = world_z).
Proof.
  apply (to_new_axes_carries_new_axes_to_world_axes world_y world_x).
  - exact (unit_vec3d_nonzero _ world_y_unit).
  - exact (unit_vec3d_nonzero _ world_x_unit).
  - exact not_opposite_y_z.
  - destruct from_to_y_z_about_x as (_ & _ & ->).
    exact (not_opposite_self _ (unit_vec3d_nonzero _ world_x_unit)).
Defined.

(** C3 (code bug).  On the nonzero, exactly opposite inputs
    [a = (0,2,0)] and [b = (0,-4,0)], binary64 evaluation of
    [reb_rotation_init_from_to] returns a NaN quaternion, and the image of
    [normalize a] is NaN, within no tolerance of [normalize b = (0,-1,0)]:
    [half] is normalised before its length is tested, so the test is made
    on NaN and the branch written for opposite vectors is not reached
    (the defect of C1).  The body of that branch, on this input, returns
    [((0,0,-1), r = 0)], which sends [normalize a] to [normalize b]. *)
Lemma from_to_opposite_inputs_binary64 :
  let a := f64_vec3d 0 2 0 in
  let b := f64_vec3d 0 (-4) 0 in
  PrimFloat.eqb (reb_vec3d_length_squared a) 0 = false
  /\ PrimFloat.eqb (reb_vec3d_length_squared b) 0 = false
  /\ reb_vec3d_normalize b = f64_vec3d 0 (-1) 0
  /\ is_nan_rotation (reb_rotation_init_from_to a b) = true
  /\ within 1 (reb_vec3d_rotate (reb_vec3d_normalize a)
                 (reb_rotation_init_from_to a b))
              (reb_vec3d_normalize b) = false
  /\ from_to_antipodal (reb_vec3d_normalize a)
     = mk_rotation 0%float 0%float (-1)%float 0%float
  /\ reb_vec3d_rotate (reb_vec3d_normalize a)
       (from_to_antipodal (reb_vec3d_normalize a))
     = reb_vec3d_normalize b.
Proof. vm_compute. repeat split. Qed.

(** X22.  In exact arithmetic, for all nonzero [a] and [b] that do not
    point in exactly opposite directions, [reb_rotation_init_from_to a b]
    is the half-vector rotation on the small-angle branch and the product of
    two half-vector rotations on the large-angle branch, and on both it
    rotates [normalize a] onto [normalize b]. *)
Theorem from_to_rotates_from_onto_to (a b : reb_vec3d R) :
  a <> zero_vec3d -> b <> zero_vec3d -> ~ opposite a b ->
  let from := reb_vec3d_normalize a in
  let to := reb_vec3d_normalize b in
  let half := reb_vec3d_normalize (reb_vec3d_add from to) in
  (0 <= reb_vec3d_dot from to ->
   reb_rotation_init_from_to a b
   = reb_rotation_init_from_to_reduced from to)
  /\ (reb_vec3d_dot from to < 0 ->
      reb_rotation_init_from_to a b
      = reb_rotation_mul (reb_rotation_init_from_to_reduced from half)
                         (reb_rotation_init_from_to_reduced half to))
  /\ reb_vec3d_rotate from (reb_rotation_init_from_to a b) = to.
Proof.
  intros Ha Hb Hno from to half.
  pose proof (not_opposite_sum a b Ha Hb Hno) as Hsum.
  split; [ | split].
  - intros Hd. apply from_to_small_angle; assumption.
  - intros Hd. apply (from_to_large_angle a b Ha Hb Hd Hsum).
  - apply from_to_regular; assumption.
Qed.

(** One input on each branch: a right angle, and [135] degrees. *)
Lemma from_to_rotates_from_onto_to_witness :
  let a := {| x := 1; y := 0; z := 0 |} in
  let b := {| x := 0; y := 1; z := 0 |} in
  let c := {| x := -1; y := 1; z := 0 |} in
  reb_vec3d_rotate (reb_vec3d_normalize a) (reb_rotation_init_from_to a b)
  = reb_vec3d_normalize b
  /\ (reb_vec3d_dot (reb_vec3d_normalize a) (reb_vec3d_normalize c) < 0
      /\ reb_rotation_init_from_to a c
         = (let from := reb_vec3d_normalize a in
            let to := reb_vec3d_normalize c in
            let half := reb_vec3d_normalize (reb_vec3d_add from to) in
            reb_rotation_mul (reb_rotation_init_from_to_reduced from half)
                             (reb_rotation_init_from_to_reduced half to))
      /\ reb_vec3d_rotate (reb_vec3d_normalize a)
           (reb_rotation_init_from_to a c)
         = reb_vec3d_normalize c).
Proof.
  intros a b c.
  assert (Ha : a <> zero_vec3d) by (intros E; injection E; lra).
  assert (Hb : b <> zero_vec3d) by (intros E; injection E; lra).
  assert (Hc : c <> zero_vec3d) by (intros E; injection E; lra).
  assert (Hab : ~ opposite a b).
  { intros (k & Hk & E). injection E as E1 E2. core_unfold. lra. }
  assert (Hac : ~ opposite a c).
  { intros (k & Hk & E). injection E as E1 E2. core_unfold. lra. }
  split.
  - apply (from_to_rotates_from_onto_to a b Ha Hb Hab).
  - assert (Hd : reb_vec3d_dot (reb_vec3d_normalize a)
                               (reb_vec3d_normalize c) < 0).
    { pose proof (inv_sqrt_pos _ (length_squared_pos a Ha)) as Hsa.
      pose proof (inv_sqrt_pos _ (length_squared_pos c Hc)) as Hsc.
      unfold reb_vec3d_normalize.
      change (d1 / dsqrt (reb_vec3d_length_squared a))%dbl
        with (1 / sqrt (reb_vec3d_length_squared a)).
      change (d1 / dsqrt (reb_vec3d_length_squared c))%dbl
        with (1 / sqrt (reb_vec3d_length_squared c)).
      set (sa := 1 / sqrt (reb_vec3d_length_squared a)) in *.
      set (sc := 1 / sqrt (reb_vec3d_length_squared c)) in *.
      clearbody sa sc. unfold a, c. core_unfold. nra. }
    destruct (from_to_rotates_from_onto_to a c Ha Hc Hac)
      as (_ & Hlarge & Hrot).
    split; [exact Hd | split; [exact (Hlarge Hd) | exact Hrot]].
Defined.

(** The round trip of the exact model only: over the reals, with the
    mathematical [cos], [sin], [acos] and [atan2], for every inclination [i]
    strictly between [MIN_INC] and [PI - MIN_INC] and all angles [Omega],
    [omega], the angles extracted from [reb_rotation_init_orbital Omega i
    omega] are [i] itself and the representatives between [0] and [2 * PI]
    of [Omega] and [omega] modulo [2 * PI].  In binary64 the argument of
    [acos] can round above [1] and the round trip is lost: see the binary64
    section at the end. *)
Theorem to_orbital_init_orbital_roundtrip (Omega0 inc0 omega0 : R) :
  MIN_INC < inc0 < PI - MIN_INC ->
  let a := reb_rotation_to_orbital
             (reb_rotation_init_orbital Omega0 inc0 omega0) in
  inc a = inc0
  /\ (0 <= Omega a <= 2 * PI
      /\ exists k : Z, Omega a = Omega0 + 2 * IZR k * PI)
  /\ (0 <= omega a <= 2 * PI
      /\ exists k : Z, omega a = omega0 + 2 * IZR k * PI).
Proof.
  intros [Hl Hu]; cbv zeta. pose proof MIN_INC_pos as Hm.
  destruct (to_orbital_wrap
              (reb_rotation_init_orbital Omega0 inc0 omega0))
    as (O & o & HO & Ho & HOb & Hob).
  assert (HOr := wrap_negative_bound O HOb).
  assert (Hor := wrap_negative_bound o Hob).
  rewrite <- HO in HOr. rewrite <- Ho in Hor. clear O o HO Ho HOb Hob.
  revert HOr Hor.
  rewrite init_orbital_components.
  set (S := (Omega0 + omega0) / 2). set (D := (Omega0 - omega0) / 2).
  assert (Hci : 0 < cos (inc0 / 2)) by (apply cos_gt_0; lra).
  assert (Hsi : 0 < sin (inc0 / 2)) by (apply sin_gt_0; lra).
  pose proof (sin2_cos2 S) as HS. unfold Rsqr in HS.
  assert (Hacos :
    acos (2 * (cos (inc0 / 2) * cos S * (cos (inc0 / 2) * cos S)
               + cos (inc0 / 2) * sin S * (cos (inc0 / 2) * sin S)) - 1)
    = inc0).
  { replace (2 * (cos (inc0 / 2) * cos S * (cos (inc0 / 2) * cos S)
               + cos (inc0 / 2) * sin S * (cos (inc0 / 2) * sin S)) - 1)
      with (cos (2 * (inc0 / 2))).
    - replace (2 * (inc0 / 2)) with inc0 by field. apply acos_cos. lra.
    - rewrite cos_2a_cos.
      transitivity (2 * cos (inc0 / 2) * cos (inc0 / 2)
                    * (sin S * sin S + cos S * cos S) - 1);
        [rewrite HS; ring | ring]. }
  rewrite to_orbital_regular; cbn [r iz ix iy]; rewrite Hacos;
    [ | split; assumption].
  cbn [inc Omega omega]. intros HOr Hor.
  destruct (atan2_of_polar (cos (inc0 / 2)) S Hci) as [k1 E1].
  destruct (atan2_of_polar (sin (inc0 / 2)) D Hsi) as [k2 E2].
  rewrite E1, E2 in HOr, Hor |- *.
  split; [reflexivity | split; (split; [assumption | ])].
  - destruct (wrap_negative_period
                (S + 2 * IZR k1 * PI + (D + 2 * IZR k2 * PI))) as [k3 ->].
    exists (k1 + k2 + k3)%Z. rewrite !plus_IZR. unfold S, D. field.
  - destruct (wrap_negative_period
                (S + 2 * IZR k1 * PI - (D + 2 * IZR k2 * PI))) as [k3 ->].
    exists (k1 - k2 + k3)%Z. rewrite plus_IZR, minus_IZR. unfold S, D. field.
Qed.

Lemma to_orbital_init_orbital_roundtrip_witness :
  let a := reb_rotation_to_orbital (reb_rotation_init_orbital 5 1 (-2)) in
  inc a = 1
  /\ (0 <= Omega a <= 2 * PI
      /\ exists k : Z, Omega a = 5 + 2 * IZR k * PI)
  /\ (0 <= omega a <= 2 * PI
      /\ exists k : Z, omega a = -2 + 2 * IZR k * PI).
Proof.
  apply (to_orbital_init_orbital_roundtrip 5 1 (-2)).
  pose proof PI_gt_3. unfold MIN_INC. lra.
Defined.

(** C5.  In exact arithmetic, for every vector [v] and all unit quaternions
    [p] and [q], rotating [v] by [reb_rotation_mul p q] is rotating it by
    [q] first and then by [p]. *)
Theorem rotate_mul_applies_q_then_p (v : reb_vec3d R) (p q : reb_rotation R) :
  unit_rotation p -> unit_rotation q ->
  reb_vec3d_rotate v (reb_rotation_mul p q)
  = reb_vec3d_rotate (reb_vec3d_rotate v q) p.
Proof. exact (rotate_mul v p q). Qed.

Lemma rotate_mul_applies_q_then_p_witness :
  let v := {| x := 1; y := 2; z := 3 |} in
  let p := {| ix := 1; iy := 0; iz := 0; r := 0 |} in
  let q := {| ix := 0; iy := 3 / 5; iz := 0; r := 4 / 5 |} in
  reb_vec3d_rotate v (reb_rotation_mul p q)
  = reb_vec3d_rotate (reb_vec3d_rotate v q) p.
Proof.
  intros v p q. apply (rotate_mul_applies_q_then_p v p q).
  - unfold p. core_unfold. lra.
  - unfold q. core_unfold. lra.
Defined.

(** C6.  In exact arithmetic, for every quaternion [q] of nonzero norm,
    [reb_rotation_inverse q] is the conjugate of [q] with every component
    divided by the squared norm of [q], and
    [reb_rotation_mul q (reb_rotation_inverse q)] is the identity; [q] need
    not be a unit quaternion. *)
Theorem mul_inverse_is_identity (q : reb_rotation R) :
  reb_rotation_length_squared q <> 0 ->
  let c := reb_rotation_conjugate q in
  let l2 := reb_rotation_length_squared q in
  reb_rotation_inverse q
  = {| ix := ix c / l2; iy := iy c / l2; iz := iz c / l2; r := r c / l2 |}
  /\ reb_rotation_mul q (reb_rotation_inverse q) = reb_rotation_identity.
Proof.
  intros Hq c l2. split; [ | apply mul_inverse; assumption].
  subst c l2. destruct q as [qx qy qz qr].
  apply rotation_eq; core_unfold; field; exact Hq.
Qed.

Lemma mul_inverse_is_identity_witness :
  let q := {| ix := 1; iy := 2; iz := 3; r := 4 |} in
  reb_rotation_mul q (reb_rotation_inverse q) = reb_rotation_identity.
Proof.
  intros q. apply (mul_inverse_is_identity q).
  unfold q. core_unfold. lra.
Defined.

(** C7, as stated, fails: the unit quaternion [(r = -1, 0, 0, 0)] gives
    [omega = 2 * PI], and the unit quaternion
    [(r = -1/2, ix = -sqrt 3 / 2, 0, 0)] gives [Omega = 2 * PI]; neither is
    below [2 * PI]. *)
Lemma to_orbital_returns_two_pi :
  let q1 := {| ix := 0; iy := 0; iz := 0; r := -1 |} in
  let q2 := {| ix := - sqrt 3 / 2; iy := 0; iz := 0; r := -1 / 2 |} in
  (unit_rotation q1
   /\ omega (reb_rotation_to_orbital q1) = 2 * PI
   /\ ~ omega (reb_rotation_to_orbital q1) < 2 * PI)
  /\ (unit_rotation q2
      /\ Omega (reb_rotation_to_orbital q2) = 2 * PI
      /\ ~ Omega (reb_rotation_to_orbital q2) < 2 * PI).
Proof.
  intros q1 q2. subst q1 q2. pose proof PI_gt_3 as Hpi.
  set (q1 := {| ix := 0; iy := 0; iz := 0; r := -1 |}).
  set (q2 := {| ix := - sqrt 3 / 2; iy := 0; iz := 0; r := -1 / 2 |}).
  assert (H1 : omega (reb_rotation_to_orbital q1) = 2 * PI).
  { rewrite to_orbital_zero_inc; unfold q1; cbn [r iz omega].
    - rewrite atan2_neg_axis by lra. unfold wrap_negative.
      replace (Rltb (2 * PI) 0) with false
        by (symmetry; apply Rltb_false; lra). reflexivity.
    - replace (2 * (-1 * -1 + 0 * 0) - 1) with 1 by ring. apply acos_1. }
  assert (Hs3 : 0 < sqrt 3) by (apply sqrt_lt_R0; lra).
  assert (H2 : Omega (reb_rotation_to_orbital q2) = 2 * PI).
  { assert (Hi : acos (2 * (r q2 * r q2 + iz q2 * iz q2) - 1) = 2 * PI / 3).
    { unfold q2; cbn [r iz].
      replace (2 * (-1 / 2 * (-1 / 2) + 0 * 0) - 1) with (-1 / 2) by field.
      apply acos_minus_half. }
    rewrite to_orbital_regular; rewrite Hi;
      [ | unfold MIN_INC; lra].
    unfold q2; cbn [Omega r iz ix iy].
    rewrite !atan2_neg_axis by lra. unfold wrap_negative.
    replace (Rltb (PI + PI) 0) with false
      by (symmetry; apply Rltb_false; lra). ring. }
  repeat split.
  - unfold q1. core_unfold. lra.
  - exact H1.
  - rewrite H1. lra.
  - unfold q2. core_unfold. pose proof (sqrt_sqrt 3) as Hq. nra.
  - exact H2.
  - rewrite H2. lra.
Qed.

(** C7, amended.  In exact arithmetic, for every input quaternion, both
    angles [Omega] and [omega] returned by [reb_rotation_to_orbital] lie in
    the closed interval from [0] to [2 * PI], the normalisation being
    performed by adding [2 * PI] to a negative value. *)
Theorem to_orbital_angles_in_closed_range (q : reb_rotation R) :
  0 <= Omega (reb_rotation_to_orbital q) <= 2 * PI
  /\ 0 <= omega (reb_rotation_to_orbital q) <= 2 * PI.
Proof.
  destruct (to_orbital_wrap q) as (O & o & -> & -> & HO & Ho).
  split; apply wrap_negative_bound; assumption.
Qed.

(** C8.  In exact arithmetic: [reb_rotation_identity],
    [reb_rotation_init_angle_axis] on a nonzero axis and
    [reb_rotation_init_orbital] return unit quaternions; the product of two
    unit quaternions is a unit quaternion; [reb_rotation_init_from_to]
    returns a unit quaternion away from its antipodal branch; and the
    antipodal branch returns [r = 0] with an imaginary part that need not
    have norm one, [(2/3, 2/3, 1/3)] giving squared norm [8/9]. *)
Theorem constructors_return_unit_rotations :
  unit_rotation reb_rotation_identity
  /\ (forall angle axis, axis <> zero_vec3d ->
      unit_rotation (reb_rotation_init_angle_axis angle axis))
  /\ (forall Omega0 inc0 omega0,
      unit_rotation (reb_rotation_init_orbital Omega0 inc0 omega0))
  /\ (forall p q, unit_rotation p -> unit_rotation q ->
      unit_rotation (reb_rotation_mul p q))
  /\ (forall a b, a <> zero_vec3d -> b <> zero_vec3d -> ~ opposite a b ->
      unit_rotation (reb_rotation_init_from_to a b))
  /\ (forall from, r (from_to_antipodal from) = 0)
  /\ (let from := {| x := 2 / 3; y := 2 / 3; z := 1 / 3 |} in
      unit_vec3d from
      /\ reb_rotation_length_squared (from_to_antipodal from) = 8 / 9).
Proof.
  split; [exact identity_unit | ].
  split; [exact angle_axis_unit | ].
  split; [exact init_orbital_unit | ].
  split; [exact mul_unit | ].
  split.
  { intros a b Ha Hb Hno.
    apply from_to_regular; try assumption.
    apply not_opposite_sum; assumption. }
  split; [intros from; apply from_to_antipodal_axis | ].
  cbv zeta. split; [core_unfold; lra | ].
  destruct from_to_antipodal_not_half_turn as [E _]. cbv zeta in E.
  rewrite E. core_unfold. field.
Qed.

Lemma constructors_return_unit_rotations_witness :
  unit_rotation (reb_rotation_init_angle_axis 1 world_z)
  /\ unit_rotation (reb_rotation_mul reb_rotation_identity
                                     reb_rotation_identity)
  /\ unit_rotation (reb_rotation_init_from_to world_x world_x).
Proof.
  destruct constructors_return_unit_rotations
    as (Hid & Haa & _ & Hmul & Hft & _).
  split; [ | split].
  - apply Haa. exact (unit_vec3d_nonzero _ world_z_unit).
  - apply Hmul; exact Hid.
  - apply Hft.
    + exact (unit_vec3d_nonzero _ world_x_unit).
    + exact (unit_vec3d_nonzero _ world_x_unit).
    + exact (not_opposite_self _ (unit_vec3d_nonzero _ world_x_unit)).
Defined.

(** C10.  In exact arithmetic, in the antipodal branch of
    [reb_rotation_init_from_to], for every nonzero [from] (and so for its
    normalisation, which is what the branch receives), the returned
    quaternion has [r = 0] and its imaginary part is the cross product of
    [from] with a world axis along which [from] has its smallest absolute
    component, and that cross product is not the zero vector. *)
Theorem from_to_antipodal_axis_is_nonzero (from : reb_vec3d R) :
  from <> zero_vec3d ->
  antipodal_branch_ok from
  /\ antipodal_branch_ok (reb_vec3d_normalize from).
Proof.
  intros Hne.
  assert (Hb : forall v, v <> zero_vec3d -> antipodal_branch_ok v).
  { intros v Hv. unfold antipodal_branch_ok, smallest_component_axis.
    destruct (from_to_antipodal_axis v)
      as (Hr & axis & Hin & Him & Hx & Hy & Hz).
    split; [exact Hr | split].
    - apply from_to_antipodal_nonzero; assumption.
    - exists axis. repeat split; assumption. }
  split; apply Hb; [assumption | ].
  apply unit_vec3d_nonzero, normalize_unit; assumption.
Qed.

Lemma from_to_antipodal_axis_is_nonzero_witness :
  antipodal_branch_ok world_x
  /\ antipodal_branch_ok (reb_vec3d_normalize world_x).
Proof.
  apply (from_to_antipodal_axis_is_nonzero world_x).
  exact (unit_vec3d_nonzero _ world_x_unit).
Defined.

End Claims.

(** C9.  For any scalar type: [reb_particle_irotate] rewrites the position
    and the velocity of the particle, each rotated by the same quaternion,
    and leaves every other field as it was; [reb_simulation_irotate] keeps
    [N], the other fields of the simulation and the length of the particle
    array, replaces the particle at every index below [N] by its rotation,
    the loop running over the indices in increasing order, and leaves the
    particles at indices [N] and above as they were. *)
Theorem irotate_rewrites_position_and_velocity_only
    (T : Type) (D : Double T) (Other SimOther : Type) :
  (forall (p : Particle.reb_particle T Other) (q : reb_rotation T),
      position (reb_particle_irotate p q) = reb_vec3d_irotate (position p) q
      /\ velocity (reb_particle_irotate p q)
         = reb_vec3d_irotate (velocity p) q
      /\ Particle.other (reb_particle_irotate p q) = Particle.other p)
  /\ (forall (sim : Simulation.reb_simulation T Other SimOther)
             (q : reb_rotation T),
      let sim' := reb_simulation_irotate sim q in
      Simulation.N sim' = Simulation.N sim
      /\ Simulation.other sim' = Simulation.other sim
      /\ length (Simulation.particles sim')
         = length (Simulation.particles sim)
      /\ Simulation.particles sim'
         = irotate_loop (Z.to_nat (Simulation.N sim)) 0
             (Simulation.particles sim) q
      /\ forall j : nat,
          nth_error (Simulation.particles sim') j
          = if (Z.of_nat j <? Simulation.N sim)%Z
            then option_map (fun p => reb_particle_irotate p q)
                   (nth_error (Simulation.particles sim) j)
            else nth_error (Simulation.particles sim) j).
Proof.
  split.
  - intros p q. apply particle_irotate_frame.
  - intros sim q sim'.
    destruct (simulation_irotate_frame sim q) as (HN & Ho & Hl & Hn).
    repeat split; assumption.
Qed.

(** * Further properties of the code, in exact arithmetic *)

Section Further.
Local Open Scope R_scope.

(** ** Vectors *)

Lemma normalize_scale (v : reb_vec3d R) (k : R) :
  v <> zero_vec3d -> 0 < k ->
  reb_vec3d_normalize (reb_vec3d_mul v k) = reb_vec3d_normalize v.
Proof.
  intros Hv Hk. pose proof (length_squared_pos v Hv) as HL.
  pose proof (sqrt_lt_R0 _ HL) as Hs.
  unfold reb_vec3d_normalize.
  assert (EL : reb_vec3d_length_squared (reb_vec3d_mul v k)
               = k * k * reb_vec3d_length_squared v).
  { destruct v; core_unfold; ring. }
  rewrite EL.
  change (dsqrt (k * k * reb_vec3d_length_squared v))
    with (sqrt (k * k * reb_vec3d_length_squared v)).
  rewrite sqrt_mult by nra. rewrite sqrt_square by lra.
  change (dsqrt (reb_vec3d_length_squared v))
    with (sqrt (reb_vec3d_length_squared v)).
  set (s := sqrt (reb_vec3d_length_squared v)) in *. clearbody s.
  destruct v as [a b c].
  apply vec3d_eq; core_unfold; field; lra.
Qed.

(** X1.  [reb_vec3d_normalize] on a nonzero vector returns a vector of
    length one that is a positive multiple of its argument; normalising
    again changes nothing, and neither does scaling the argument by a
    positive factor first. *)
Theorem normalize_unit_direction (v : reb_vec3d R) :
  v <> zero_vec3d ->
  unit_vec3d (reb_vec3d_normalize v)
  /\ (exists s, 0 < s /\ reb_vec3d_normalize v = reb_vec3d_mul v s)
  /\ reb_vec3d_normalize (reb_vec3d_normalize v) = reb_vec3d_normalize v
  /\ (forall k, 0 < k ->
      reb_vec3d_normalize (reb_vec3d_mul v k) = reb_vec3d_normalize v).
Proof.
  intros Hv. pose proof (normalize_unit v Hv) as Hu.
  split; [exact Hu | split; [ | split]].
  - exists (1 / sqrt (reb_vec3d_length_squared v)). split.
    + apply inv_sqrt_pos, length_squared_pos; assumption.
    + reflexivity.
  - apply normalize_of_unit; assumption.
  - intros k Hk. apply normalize_scale; assumption.
Qed.

Lemma normalize_unit_direction_witness :
  unit_vec3d (reb_vec3d_normalize {| x := 3; y := 0; z := 4 |})
  /\ (exists s, 0 < s
      /\ reb_vec3d_normalize {| x := 3; y := 0; z := 4 |}
         = reb_vec3d_mul {| x := 3; y := 0; z := 4 |} s)
  /\ reb_vec3d_normalize (reb_vec3d_normalize {| x := 3; y := 0; z := 4 |})
     = reb_vec3d_normalize {| x := 3; y := 0; z := 4 |}
  /\ (forall k, 0 < k ->
      reb_vec3d_normalize (reb_vec3d_mul {| x := 3; y := 0; z := 4 |} k)
      = reb_vec3d_normalize {| x := 3; y := 0; z := 4 |}).
Proof.
  apply (normalize_unit_direction {| x := 3; y := 0; z := 4 |}).
  intros E; injection E; lra.
Defined.

(** X2.  [reb_vec3d_cross a b] is orthogonal to [a] and to [b], changes
    sign when its arguments are swapped, and its squared length is
    [|a|^2 |b|^2 - (a . b)^2]. *)
Theorem cross_orthogonal_antisymmetric (a b : reb_vec3d R) :
  reb_vec3d_dot a (reb_vec3d_cross a b) = 0
  /\ reb_vec3d_dot b (reb_vec3d_cross a b) = 0
  /\ reb_vec3d_cross b a = reb_vec3d_mul (reb_vec3d_cross a b) (-1)
  /\ reb_vec3d_length_squared (reb_vec3d_cross a b)
     = reb_vec3d_length_squared a * reb_vec3d_length_squared b
       - reb_vec3d_dot a b * reb_vec3d_dot a b.
Proof.
  destruct a as [a1 a2 a3], b as [b1 b2 b3].
  repeat split; try (apply vec3d_eq); core_unfold; ring.
Qed.

(** ** Quaternions *)

Lemma mul_assoc (p q s : reb_rotation R) :
  reb_rotation_mul (reb_rotation_mul p q) s
  = reb_rotation_mul p (reb_rotation_mul q s).
Proof. destruct p, q, s; apply rotation_eq; core_unfold; ring. Qed.

Lemma mul_identity_l (q : reb_rotation R) :
  reb_rotation_mul reb_rotation_identity q = q.
Proof. destruct q; apply rotation_eq; core_unfold; ring. Qed.

Lemma mul_identity_r (q : reb_rotation R) :
  reb_rotation_mul q reb_rotation_identity = q.
Proof. destruct q; apply rotation_eq; core_unfold; ring. Qed.

(** X3.  [reb_rotation_mul] is associative, has [reb_rotation_identity] as
    left and right unit, multiplies squared norms, and is not commutative:
    the product of the units [i] and [j] is [k] in one order and [- k] in
    the other. *)
Theorem mul_is_a_noncommutative_monoid :
  (forall p q s, reb_rotation_mul (reb_rotation_mul p q) s
                 = reb_rotation_mul p (reb_rotation_mul q s))
  /\ (forall q, reb_rotation_mul reb_rotation_identity q = q
                /\ reb_rotation_mul q reb_rotation_identity = q)
  /\ (forall p q, reb_rotation_length_squared (reb_rotation_mul p q)
                  = reb_rotation_length_squared p
                    * reb_rotation_length_squared q)
  /\ (let i := {| ix := 1; iy := 0; iz := 0; r := 0 |} in
      let j := {| ix := 0; iy := 1; iz := 0; r := 0 |} in
      let k := {| ix := 0; iy := 0; iz := 1; r := 0 |} in
      reb_rotation_mul i j = k
      /\ reb_rotation_mul j i = negated k
      /\ reb_rotation_mul i j <> reb_rotation_mul j i).
Proof.
  split; [exact mul_assoc | ].
  split; [intros q; split; [apply mul_identity_l | apply mul_identity_r] | ].
  split; [exact mul_length_squared | ].
  cbv zeta. split; [ | split].
  - apply rotation_eq; core_unfold; ring.
  - apply rotation_eq; cbv [negated]; core_unfold; ring.
  - intros E. apply (f_equal iz) in E. core_unfold. lra.
Qed.

Lemma conjugate_mul (p q : reb_rotation R) :
  reb_rotation_conjugate (reb_rotation_mul p q)
  = reb_rotation_mul (reb_rotation_conjugate q) (reb_rotation_conjugate p).
Proof. destruct p, q; apply rotation_eq; core_unfold; ring. Qed.

Lemma inverse_of_unit (q : reb_rotation R) :
  unit_rotation q -> reb_rotation_inverse q = reb_rotation_conjugate q.
Proof.
  unfold unit_rotation, reb_rotation_inverse; intros Hq; cbv zeta.
  rewrite Hq. destruct q as [qx qy qz qr].
  apply rotation_eq; core_unfold; field.
Qed.

Lemma inverse_mul_l (q : reb_rotation R) :
  reb_rotation_length_squared q <> 0 ->
  reb_rotation_mul (reb_rotation_inverse q) q = reb_rotation_identity.
Proof.
  destruct q as [qx qy qz qr]; intros Hq.
  apply rotation_eq; core_unfold; field; exact Hq.
Qed.

Lemma conjugate_unit (q : reb_rotation R) :
  unit_rotation q -> unit_rotation (reb_rotation_conjugate q).
Proof.
  unfold unit_rotation; intros Hq. rewrite <- Hq.
  destruct q; core_unfold; ring.
Qed.

(** X4.  [reb_rotation_conjugate] is an involution that keeps the norm and
    reverses products.  [reb_rotation_inverse] of a quaternion of nonzero
    norm is a left inverse as well as a right one, is undone by a second
    inverse, reverses products, and is the conjugate on unit quaternions. *)
Theorem conjugate_and_inverse_laws :
  (forall q, reb_rotation_conjugate (reb_rotation_conjugate q) = q)
  /\ (forall q, reb_rotation_length_squared (reb_rotation_conjugate q)
                = reb_rotation_length_squared q)
  /\ (forall p q,
      reb_rotation_conjugate (reb_rotation_mul p q)
      = reb_rotation_mul (reb_rotation_conjugate q)
                         (reb_rotation_conjugate p))
  /\ (forall q, reb_rotation_length_squared q <> 0 ->
      reb_rotation_mul (reb_rotation_inverse q) q = reb_rotation_identity
      /\ reb_rotation_inverse (reb_rotation_inverse q) = q)
  /\ (forall p q, reb_rotation_length_squared p <> 0 ->
      reb_rotation_length_squared q <> 0 ->
      reb_rotation_inverse (reb_rotation_mul p q)
      = reb_rotation_mul (reb_rotation_inverse q) (reb_rotation_inverse p))
  /\ (forall q, unit_rotation q ->
      reb_rotation_inverse q = reb_rotation_conjugate q).
Proof.
  split; [intros q; destruct q; apply rotation_eq; core_unfold; ring | ].
  split; [intros q; destruct q; core_unfold; ring | ].
  split; [exact conjugate_mul | ].
  split.
  { intros q Hq. split; [apply inverse_mul_l; assumption | ].
    destruct q as [qx qy qz qr].
    apply rotation_eq; core_unfold; field; exact Hq. }
  split; [ | exact inverse_of_unit].
  intros p q Hp Hq.
  destruct p as [px py pz pr], q as [qx qy qz qr].
  assert (Hpq : reb_rotation_length_squared
                  (reb_rotation_mul (mk_rotation px py pz pr)
                                    (mk_rotation qx qy qz qr)) <> 0).
  { rewrite mul_length_squared. apply Rmult_integral_contrapositive_currified;
      assumption. }
  apply rotation_eq; core_unfold; field; auto.
Qed.

Lemma conjugate_and_inverse_laws_witness :
  let q := {| ix := 1; iy := 2; iz := 3; r := 4 |} in
  let u := {| ix := 3 / 5; iy := 0; iz := 0; r := 4 / 5 |} in
  reb_rotation_mul (reb_rotation_inverse q) q = reb_rotation_identity
  /\ reb_rotation_inverse (reb_rotation_inverse q) = q
  /\ reb_rotation_inverse (reb_rotation_mul q u)
     = reb_rotation_mul (reb_rotation_inverse u) (reb_rotation_inverse q)
  /\ reb_rotation_inverse u = reb_rotation_conjugate u.
Proof.
  intros q u.
  destruct conjugate_and_inverse_laws as (_ & _ & _ & Hinv & Hmul & Hunit).
  assert (Hq : reb_rotation_length_squared q <> 0)
    by (unfold q; core_unfold; lra).
  assert (Hu : unit_rotation u) by (unfold u; core_unfold; lra).
  assert (Hu0 : reb_rotation_length_squared u <> 0)
    by (unfold unit_rotation in Hu; rewrite Hu; lra).
  destruct (Hinv q Hq) as [H1 H2].
  repeat split; [exact H1 | exact H2 | apply Hmul; assumption
                 | apply Hunit; assumption].
Defined.

(** ** Applying a rotation *)

(** X5.  For every quaternion [q], unit or not, [reb_vec3d_rotate] is
    linear in the vector and leaves the imaginary part of [q], the rotation
    axis, where it is; the identity quaternion moves nothing, and [- q]
    rotates as [q] does. *)
Theorem rotate_linear_axis_fixed (q : reb_rotation R) :
  (forall u v, reb_vec3d_rotate (reb_vec3d_add u v) q
               = reb_vec3d_add (reb_vec3d_rotate u q) (reb_vec3d_rotate v q))
  /\ (forall v s, reb_vec3d_rotate (reb_vec3d_mul v s) q
                  = reb_vec3d_mul (reb_vec3d_rotate v q) s)
  /\ reb_vec3d_rotate (reb_rotation_imag q) q = reb_rotation_imag q
  /\ (forall v, reb_vec3d_rotate v reb_rotation_identity = v)
  /\ (forall v, reb_vec3d_rotate v (negated q) = reb_vec3d_rotate v q).
Proof.
  destruct q as [qx qy qz qr]. repeat split.
  - intros [u1 u2 u3] [v1 v2 v3]. apply vec3d_eq; core_unfold; ring.
  - intros [v1 v2 v3] s. apply vec3d_eq; core_unfold; ring.
  - apply vec3d_eq; core_unfold; ring.
  - intros [v1 v2 v3]. apply vec3d_eq; core_unfold; ring.
  - intros [v1 v2 v3]. apply vec3d_eq; cbv [negated]; core_unfold; ring.
Qed.

Lemma rotate_cross_defect (u v : reb_vec3d R) (q : reb_rotation R) :
  reb_vec3d_cross (reb_vec3d_rotate u q) (reb_vec3d_rotate v q)
  = reb_vec3d_add (reb_vec3d_rotate (reb_vec3d_cross u v) q)
      (reb_vec3d_mul
         (reb_vec3d_add
            (reb_vec3d_add (reb_vec3d_cross (reb_vec3d_rotate u q) v)
                           (reb_vec3d_cross u (reb_vec3d_rotate v q)))
            (reb_vec3d_mul
               (reb_vec3d_add (reb_vec3d_rotate (reb_vec3d_cross u v) q)
                              (reb_vec3d_cross u v)) (-1)))
         (1 - reb_rotation_length_squared q)).
Proof.
  destruct u as [u1 u2 u3], v as [v1 v2 v3], q as [qx qy qz qr].
  apply vec3d_eq; core_unfold; ring.
Qed.

Lemma rotate_cross (u v : reb_vec3d R) (q : reb_rotation R) :
  unit_rotation q ->
  reb_vec3d_cross (reb_vec3d_rotate u q) (reb_vec3d_rotate v q)
  = reb_vec3d_rotate (reb_vec3d_cross u v) q.
Proof.
  intros Hq. rewrite rotate_cross_defect. unfold unit_rotation in Hq.
  rewrite Hq.
  apply vec3d_eq; cbv [reb_vec3d_add reb_vec3d_mul x y z dadd dmul R_Double];
    ring.
Qed.

(** X6.  Rotation by a unit quaternion is an isometry that keeps
    orientation: it preserves dot products, squared lengths and cross
    products. *)
Theorem rotate_preserves_dot_and_cross
    (q : reb_rotation R) (u v : reb_vec3d R) :
  unit_rotation q ->
  reb_vec3d_dot (reb_vec3d_rotate u q) (reb_vec3d_rotate v q)
  = reb_vec3d_dot u v
  /\ reb_vec3d_length_squared (reb_vec3d_rotate v q)
     = reb_vec3d_length_squared v
  /\ reb_vec3d_cross (reb_vec3d_rotate u q) (reb_vec3d_rotate v q)
     = reb_vec3d_rotate (reb_vec3d_cross u v) q.
Proof.
  intros Hq. split; [ | split].
  - apply rotate_dot; assumption.
  - apply rotate_length_squared; assumption.
  - apply rotate_cross; assumption.
Qed.

Lemma rotate_preserves_dot_and_cross_witness :
  let q := {| ix := 0; iy := 3 / 5; iz := 0; r := 4 / 5 |} in
  let u := {| x := 1; y := 2; z := 3 |} in
  let v := {| x := -1; y := 0; z := 5 |} in
  reb_vec3d_dot (reb_vec3d_rotate u q) (reb_vec3d_rotate v q)
  = reb_vec3d_dot u v
  /\ reb_vec3d_length_squared (reb_vec3d_rotate v q)
     = reb_vec3d_length_squared v
  /\ reb_vec3d_cross (reb_vec3d_rotate u q) (reb_vec3d_rotate v q)
     = reb_vec3d_rotate (reb_vec3d_cross u v) q.
Proof.
  intros q u v. apply (rotate_preserves_dot_and_cross q u v).
  unfold q. core_unfold. lra.
Defined.

Lemma rotate_conjugate_undoes (v : reb_vec3d R) (q : reb_rotation R) :
  unit_rotation q ->
  reb_vec3d_rotate (reb_vec3d_rotate v q) (reb_rotation_conjugate q) = v.
Proof.
  intros Hq.
  rewrite <- rotate_mul by (try apply conjugate_unit; assumption).
  rewrite <- (inverse_of_unit q Hq), inverse_mul_l.
  - apply rotate_identity.
  - unfold unit_rotation in Hq. rewrite Hq. lra.
Qed.

(** X7.  For a unit quaternion [q], rotating by [q] and then by
    [reb_rotation_inverse q], or the other way round, returns the vector
    one started from. *)
Theorem rotate_then_inverse_roundtrip
    (q : reb_rotation R) (v : reb_vec3d R) :
  unit_rotation q ->
  reb_vec3d_rotate (reb_vec3d_rotate v q) (reb_rotation_inverse q) = v
  /\ reb_vec3d_rotate (reb_vec3d_rotate v (reb_rotation_inverse q)) q = v.
Proof.
  intros Hq. rewrite (inverse_of_unit q Hq). split.
  - apply rotate_conjugate_undoes; assumption.
  - pose proof (rotate_conjugate_undoes v _ (conjugate_unit q Hq)) as E.
    replace (reb_rotation_conjugate (reb_rotation_conjugate q)) with q in E
      by (destruct q; apply rotation_eq; core_unfold; ring).
    exact E.
Qed.

Lemma rotate_then_inverse_roundtrip_witness :
  let q := {| ix := 0; iy := 3 / 5; iz := 0; r := 4 / 5 |} in
  let v := {| x := 1; y := 2; z := 3 |} in
  reb_vec3d_rotate (reb_vec3d_rotate v q) (reb_rotation_inverse q) = v
  /\ reb_vec3d_rotate (reb_vec3d_rotate v (reb_rotation_inverse q)) q = v.
Proof.
  intros q v. apply (rotate_then_inverse_roundtrip q v).
  unfold q. core_unfold. lra.
Defined.

(** ** Angle and axis *)

Lemma cos_half (t : R) : cos t = cos (t / 2) * cos (t / 2)
                                 - sin (t / 2) * sin (t / 2).
Proof. rewrite <- cos_2a. f_equal. field. Qed.

Lemma sin_half (t : R) : sin t = 2 * sin (t / 2) * cos (t / 2).
Proof. rewrite <- sin_2a. f_equal. field. Qed.

Lemma rotate_about_z (angle : R) (v : reb_vec3d R) :
  reb_vec3d_rotate v (reb_rotation_init_angle_axis angle world_z)
  = {| x := x v * cos angle - y v * sin angle;
       y := x v * sin angle + y v * cos angle;
       z := z v |}.
Proof.
  unfold world_z. rewrite angle_axis_z, (cos_half angle), (sin_half angle).
  pose proof (sin2_cos2 (angle / 2)) as Hsc. unfold Rsqr in Hsc.
  set (c := cos (angle / 2)) in *. set (s := sin (angle / 2)) in *.
  destruct v as [v1 v2 v3]. apply vec3d_eq; core_unfold.
  - transitivity (v1 * (s * s + c * c) - 2 * s * s * v1 - 2 * s * c * v2);
      [rewrite Hsc; ring | ring].
  - transitivity (v2 * (s * s + c * c) - 2 * s * s * v2 + 2 * s * c * v1);
      [rewrite Hsc; ring | ring].
  - ring.
Qed.

Lemma rotate_about_x (angle : R) (v : reb_vec3d R) :
  reb_vec3d_rotate v (reb_rotation_init_angle_axis angle world_x)
  = {| x := x v;
       y := y v * cos angle - z v * sin angle;
       z := y v * sin angle + z v * cos angle |}.
Proof.
  unfold world_x. rewrite angle_axis_x, (cos_half angle), (sin_half angle).
  pose proof (sin2_cos2 (angle / 2)) as Hsc. unfold Rsqr in Hsc.
  set (c := cos (angle / 2)) in *. set (s := sin (angle / 2)) in *.
  destruct v as [v1 v2 v3]. apply vec3d_eq; core_unfold.
  - ring.
  - transitivity (v2 * (s * s + c * c) - 2 * s * s * v2 - 2 * s * c * v3);
      [rewrite Hsc; ring | ring].
  - transitivity (v3 * (s * s + c * c) - 2 * s * s * v3 + 2 * s * c * v2);
      [rewrite Hsc; ring | ring].
Qed.

(** X8.  The quaternion [reb_rotation_init_angle_axis angle axis] turns
    vectors by [angle], counterclockwise seen from the tip of the axis:
    about the world z-axis it sends [(x, y, z)] to
    [(x cos - y sin, x sin + y cos, z)], and about the world x-axis to
    [(x, y cos - z sin, y sin + z cos)]. *)
Theorem angle_axis_turns_by_angle (angle : R) (v : reb_vec3d R) :
  reb_vec3d_rotate v (reb_rotation_init_angle_axis angle world_z)
  = {| x := x v * cos angle - y v * sin angle;
       y := x v * sin angle + y v * cos angle;
       z := z v |}
  /\ reb_vec3d_rotate v (reb_rotation_init_angle_axis angle world_x)
     = {| x := x v;
          y := y v * cos angle - z v * sin angle;
          z := y v * sin angle + z v * cos angle |}.
Proof. split; [apply rotate_about_z | apply rotate_about_x]. Qed.

(** X9.  On a nonzero axis, angle-axis quaternions about the same axis
    multiply by adding their angles, the angle [0] gives the identity, the
    opposite angle gives the conjugate, and the normalised axis is left
    where it is. *)
Theorem angle_axis_same_axis_laws (axis : reb_vec3d R) (a b : R) :
  axis <> zero_vec3d ->
  reb_rotation_mul (reb_rotation_init_angle_axis a axis)
                   (reb_rotation_init_angle_axis b axis)
  = reb_rotation_init_angle_axis (a + b) axis
  /\ reb_rotation_init_angle_axis 0 axis = reb_rotation_identity
  /\ reb_rotation_init_angle_axis (- a) axis
     = reb_rotation_conjugate (reb_rotation_init_angle_axis a axis)
  /\ reb_vec3d_rotate (reb_vec3d_normalize axis)
       (reb_rotation_init_angle_axis a axis)
     = reb_vec3d_normalize axis.
Proof.
  intros Hax. pose proof (normalize_unit axis Hax) as Hn.
  unfold reb_rotation_init_angle_axis; cbv zeta.
  destruct (reb_vec3d_normalize axis) as [n1 n2 n3].
  unfold unit_vec3d in Hn.
  replace ((a + b) / 2) with (a / 2 + b / 2) by field.
  replace (0 / 2) with 0 by field.
  replace (- a / 2) with (- (a / 2)) by field.
  rewrite cos_plus, sin_plus, cos_0, sin_0, cos_neg, sin_neg.
  set (ca := cos (a / 2)). set (sa := sin (a / 2)).
  set (cb := cos (b / 2)). set (sb := sin (b / 2)).
  core_unfold. repeat split.
  - apply rotation_eq; cbv [ix iy iz r]; try ring.
    transitivity (ca * cb - sa * sb * (n1 * n1 + n2 * n2 + n3 * n3));
      [ring | rewrite Hn; ring].
  - apply rotation_eq; cbv [ix iy iz r]; ring.
  - apply rotation_eq; cbv [ix iy iz r]; ring.
  - apply vec3d_eq; cbv [x y z]; ring.
Qed.

Lemma angle_axis_same_axis_laws_witness :
  let axis := {| x := 0; y := 0; z := 2 |} in
  reb_rotation_mul (reb_rotation_init_angle_axis 1 axis)
                   (reb_rotation_init_angle_axis 2 axis)
  = reb_rotation_init_angle_axis (1 + 2) axis
  /\ reb_rotation_init_angle_axis 0 axis = reb_rotation_identity
  /\ reb_rotation_init_angle_axis (- 1) axis
     = reb_rotation_conjugate (reb_rotation_init_angle_axis 1 axis)
  /\ reb_vec3d_rotate (reb_vec3d_normalize axis)
       (reb_rotation_init_angle_axis 1 axis)
     = reb_vec3d_normalize axis.
Proof.
  intros axis. apply (angle_axis_same_axis_laws axis 1 2).
  intros E; injection E; lra.
Defined.

(** ** From one vector to another *)

(** Applying the half-vector rotation twice gives the rotation through the
    whole angle. *)
Lemma reduced_twice (f h : reb_vec3d R) :
  unit_vec3d f -> unit_vec3d h -> reb_vec3d_add f h <> zero_vec3d ->
  reb_rotation_mul (reb_rotation_init_from_to_reduced f h)
                   (reb_rotation_init_from_to_reduced f h)
  = let c := reb_vec3d_cross f h in
    {| ix := x c; iy := y c; iz := z c; r := reb_vec3d_dot f h |}.
Proof.
  intros Hf Hh Hne. cbv zeta.
  pose proof (inv_sqrt_sq _ (length_squared_pos _ Hne)) as Hs.
  rewrite (sum_length_squared f h Hf Hh) in Hs.
  rewrite reduced_half; cbv zeta. unfold reb_vec3d_normalize.
  rewrite (sum_length_squared f h Hf Hh).
  destruct f as [fx fy fz], h as [hx hy hz]. core_unfold.
  set (s := 1 / sqrt _) in *.
  set (F := fx * fx + fy * fy + fz * fz) in *.
  set (H := hx * hx + hy * hy + hz * hz) in *.
  set (d := fx * hx + fy * hy + fz * hz) in *.
  assert (Hk : 2 * (s * s) * (F + d) = 1) by (rewrite Hf; lra).
  apply rotation_eq; cbv [ix iy iz r].
  - transitivity (2 * (s * s) * (F + d) * (fy * hz - fz * hy));
      [unfold F, d; ring | rewrite Hk; ring].
  - transitivity (2 * (s * s) * (F + d) * (fz * hx - fx * hz));
      [unfold F, d; ring | rewrite Hk; ring].
  - transitivity (2 * (s * s) * (F + d) * (fx * hy - fy * hx));
      [unfold F, d; ring | rewrite Hk; ring].
  - transitivity (s * s * ((F + d) * (F + d) - (F * H - d * d)));
      [unfold F, H, d; ring | ].
    rewrite Hf, Hh.
    transitivity (s * s * (2 + 2 * d) * d); [ring | rewrite Hs; ring].
Qed.

(** In exact arithmetic the two-stage product of the large-angle branch is
    the quaternion the small-angle formula gives. *)
Lemma large_angle_collapses (f t : reb_vec3d R) :
  unit_vec3d f -> unit_vec3d t -> reb_vec3d_add f t <> zero_vec3d ->
  let h := reb_vec3d_normalize (reb_vec3d_add f t) in
  reb_rotation_mul (reb_rotation_init_from_to_reduced f h)
                   (reb_rotation_init_from_to_reduced h t)
  = reb_rotation_init_from_to_reduced f t.
Proof.
  intros Hf Ht Hne h.
  assert (Hh : unit_vec3d h) by (apply normalize_unit; assumption).
  destruct (bisector f t Hf Ht Hne) as (_ & Hpos & _). fold h in Hpos.
  assert (Hne1 : reb_vec3d_add f h <> zero_vec3d)
    by (apply add_nonzero_of_dot; try assumption; lra).
  pose proof (reduced_bisector f t Hf Ht Hne) as Hq. cbv zeta in Hq.
  fold h in Hq. rewrite <- Hq, (reduced_twice f h Hf Hh Hne1).
  rewrite (reduced_half f t). reflexivity.
Qed.

Lemma from_to_is_reduced (a b : reb_vec3d R) :
  a <> zero_vec3d -> b <> zero_vec3d -> normalized_sum a b <> zero_vec3d ->
  reb_rotation_init_from_to a b
  = reb_rotation_init_from_to_reduced (reb_vec3d_normalize a)
                                      (reb_vec3d_normalize b).
Proof.
  intros Ha Hb Hne.
  destruct (Rle_lt_dec 0 (reb_vec3d_dot (reb_vec3d_normalize a)
                                        (reb_vec3d_normalize b))) as [Hd | Hd].
  - apply from_to_small_angle; assumption.
  - rewrite (from_to_large_angle a b Ha Hb Hd Hne). cbv zeta.
    apply large_angle_collapses; try apply normalize_unit; assumption.
Qed.

(** X10.  In exact arithmetic, for nonzero [a] and [b] not exactly
    opposite, both branches of [reb_rotation_init_from_to] return the
    quaternion of the small-angle formula, and it is the half-angle
    quaternion of the turn from [from = normalize a] to [to = normalize b]:
    its real part [r] is positive with [2 r^2 - 1 = from . to], and its
    imaginary part scaled by [2 r] is [from x to], so that the axis is
    orthogonal to both vectors. *)
Theorem from_to_is_the_half_angle_quaternion (a b : reb_vec3d R) :
  a <> zero_vec3d -> b <> zero_vec3d -> ~ opposite a b ->
  let from := reb_vec3d_normalize a in
  let to := reb_vec3d_normalize b in
  let q := reb_rotation_init_from_to a b in
  q = reb_rotation_init_from_to_reduced from to
  /\ 0 < r q
  /\ 2 * (r q * r q) - 1 = reb_vec3d_dot from to
  /\ reb_vec3d_mul (reb_rotation_imag q) (2 * r q) = reb_vec3d_cross from to
  /\ reb_vec3d_dot (reb_rotation_imag q) from = 0
  /\ reb_vec3d_dot (reb_rotation_imag q) to = 0.
Proof.
  intros Ha Hb Hno from to q.
  pose proof (not_opposite_sum a b Ha Hb Hno) as Hsum.
  pose proof (normalize_unit a Ha) as Hf.
  pose proof (normalize_unit b Hb) as Ht.
  assert (Hq : q = reb_rotation_init_from_to_reduced from to)
    by (apply from_to_is_reduced; assumption).
  split; [exact Hq | ]. rewrite Hq. clear Hq q.
  unfold normalized_sum in Hsum. fold from to in Hsum, Hf, Ht.
  clearbody from to.
  destruct (bisector from to Hf Ht Hsum) as (_ & Hpos & _).
  pose proof (inv_sqrt_sq _ (length_squared_pos _ Hsum)) as Hs.
  rewrite (sum_length_squared from to Hf Ht) in Hs.
  rewrite reduced_half; cbv zeta.
  revert Hpos. unfold reb_vec3d_normalize.
  rewrite (sum_length_squared from to Hf Ht).
  destruct from as [fx fy fz], to as [tx ty tz]. core_unfold.
  set (s := 1 / sqrt _) in *.
  set (F := fx * fx + fy * fy + fz * fz) in *.
  set (c := fx * tx + fy * ty + fz * tz) in *.
  assert (Hk : 2 * (s * s) * (F + c) = 1) by (rewrite Hf; lra).
  intros Hpos. split; [exact Hpos | ].
  assert (Er : fx * (s * (fx + tx)) + fy * (s * (fy + ty))
               + fz * (s * (fz + tz)) = s * (F + c))
    by (unfold F, c; ring).
  rewrite Er. repeat split.
  - transitivity (2 * (s * s) * (F + c) * (F + c) - 1);
      [ring | rewrite Hk, Hf; ring].
  - apply vec3d_eq; cbv [x y z].
    + transitivity (2 * (s * s) * (F + c) * (fy * tz - fz * ty));
        [ring | rewrite Hk; ring].
    + transitivity (2 * (s * s) * (F + c) * (fz * tx - fx * tz));
        [ring | rewrite Hk; ring].
    + transitivity (2 * (s * s) * (F + c) * (fx * ty - fy * tx));
        [ring | rewrite Hk; ring].
  - ring.
  - ring.
Qed.

Lemma from_to_is_the_half_angle_quaternion_witness :
  let a := {| x := 1; y := 0; z := 0 |} in
  let b := {| x := -1; y := 1; z := 0 |} in
  let from := reb_vec3d_normalize a in
  let to := reb_vec3d_normalize b in
  let q := reb_rotation_init_from_to a b in
  q = reb_rotation_init_from_to_reduced from to
  /\ 0 < r q
  /\ 2 * (r q * r q) - 1 = reb_vec3d_dot from to
  /\ reb_vec3d_mul (reb_rotation_imag q) (2 * r q) = reb_vec3d_cross from to
  /\ reb_vec3d_dot (reb_rotation_imag q) from = 0
  /\ reb_vec3d_dot (reb_rotation_imag q) to = 0.
Proof.
  intros a b.
  apply (from_to_is_the_half_angle_quaternion a b).
  - intros E; injection E; lra.
  - intros E; injection E; lra.
  - intros (k & Hk & E). injection E as E1 E2. core_unfold. lra.
Defined.

Lemma add_comm_vec3d (u v : reb_vec3d R) :
  reb_vec3d_add u v = reb_vec3d_add v u.
Proof. destruct u, v; apply vec3d_eq; core_unfold; ring. Qed.

Lemma reduced_reverse (f t : reb_vec3d R) :
  unit_vec3d f -> unit_vec3d t ->
  reb_rotation_init_from_to_reduced t f
  = reb_rotation_conjugate (reb_rotation_init_from_to_reduced f t).
Proof.
  intros Hf Ht. rewrite !reduced_half; cbv zeta.
  rewrite (add_comm_vec3d t f). unfold reb_vec3d_normalize.
  set (s := (d1 / dsqrt _)%dbl). clearbody s.
  destruct f as [fx fy fz], t as [tx ty tz]. core_unfold.
  apply rotation_eq; cbv [ix iy iz r]; try ring.
  transitivity (s * ((tx * tx + ty * ty + tz * tz)
                     + (fx * tx + fy * ty + fz * tz)));
    [ring | rewrite Ht, <- Hf; ring].
Qed.

(** X11.  [reb_rotation_init_from_to] only sees the directions of its
    arguments: positive scalings of nonzero arguments do not change the
    result.  From a nonzero vector to itself it is the identity, and, for
    arguments not exactly opposite, swapping them conjugates the result. *)
Theorem from_to_scaling_and_reversal (a b : reb_vec3d R) (s t : R) :
  a <> zero_vec3d -> b <> zero_vec3d -> 0 < s -> 0 < t ->
  reb_rotation_init_from_to (reb_vec3d_mul a s) (reb_vec3d_mul b t)
  = reb_rotation_init_from_to a b
  /\ reb_rotation_init_from_to a (reb_vec3d_mul a s) = reb_rotation_identity
  /\ (~ opposite a b ->
      reb_rotation_init_from_to b a
      = reb_rotation_conjugate (reb_rotation_init_from_to a b)).
Proof.
  intros Ha Hb Hs Ht.
  assert (Hscale : forall u v k l, u <> zero_vec3d -> v <> zero_vec3d ->
            0 < k -> 0 < l ->
            reb_rotation_init_from_to (reb_vec3d_mul u k) (reb_vec3d_mul v l)
            = reb_rotation_init_from_to u v).
  { intros u v k l Hu Hv Hk Hl. unfold reb_rotation_init_from_to.
    rewrite !normalize_scale by assumption. reflexivity. }
  split; [apply Hscale; assumption | split].
  - pose proof (normalize_unit a Ha) as Hf.
    rewrite <- (from_to_same _ Hf).
    unfold reb_rotation_init_from_to.
    rewrite (normalize_scale a s Ha Hs), (normalize_of_unit _ Hf).
    reflexivity.
  - intros Hno.
    pose proof (not_opposite_sum a b Ha Hb Hno) as Hsum.
    assert (Hsum' : normalized_sum b a <> zero_vec3d).
    { unfold normalized_sum in *. rewrite add_comm_vec3d. exact Hsum. }
    rewrite (from_to_is_reduced a b Ha Hb Hsum).
    rewrite (from_to_is_reduced b a Hb Ha Hsum').
    apply reduced_reverse; apply normalize_unit; assumption.
Qed.

Lemma from_to_scaling_and_reversal_witness :
  let a := {| x := 1; y := 0; z := 0 |} in
  let b := {| x := 0; y := 1; z := 0 |} in
  reb_rotation_init_from_to (reb_vec3d_mul a 2) (reb_vec3d_mul b 3)
  = reb_rotation_init_from_to a b
  /\ reb_rotation_init_from_to a (reb_vec3d_mul a 2) = reb_rotation_identity
  /\ (~ opposite a b ->
      reb_rotation_init_from_to b a
      = reb_rotation_conjugate (reb_rotation_init_from_to a b)).
Proof.
  intros a b. apply (from_to_scaling_and_reversal a b 2 3).
  - intros E; injection E; lra.
  - intros E; injection E; lra.
  - lra.
  - lra.
Defined.

(** ** New axes *)

Lemma cross_world_z_x : reb_vec3d_cross world_z world_x = world_y.
Proof. apply vec3d_eq; cbv [world_x world_y world_z]; core_unfold; ring. Qed.

(** X12.  In exact arithmetic, for nonzero orthogonal [newz] and [newx]
    with neither stage of [reb_rotation_init_to_new_axes] meeting exactly
    opposite vectors, the result is a unit quaternion that carries the
    right-handed frame made of the normalised [newx], the cross product of
    the normalised [newz] and [newx], and the normalised [newz] onto the
    world x, y and z axes. *)
Theorem to_new_axes_carries_the_frame (newz newx : reb_vec3d R) :
  let q1 := reb_rotation_init_from_to newz world_z in
  let newx' := reb_vec3d_rotate newx q1 in
  let q := reb_rotation_init_to_new_axes newz newx in
  let nz := reb_vec3d_normalize newz in
  let nx := reb_vec3d_normalize newx in
  newz <> zero_vec3d -> newx <> zero_vec3d ->
  ~ opposite newz world_z -> ~ opposite newx' world_x ->
  reb_vec3d_dot newz newx = 0 ->
  unit_rotation q
  /\ reb_vec3d_rotate nx q = world_x
  /\ reb_vec3d_rotate (reb_vec3d_cross nz nx) q = world_y
  /\ reb_vec3d_rotate nz q = world_z.
Proof.
  intros q1 newx' q nz nx Hz Hx Hoz Hox Hperp.
  set (q2 := reb_rotation_init_from_to newx' world_x).
  assert (Hq : q = reb_rotation_mul q2 q1) by reflexivity.
  pose proof world_z_unit as Hwz. pose proof world_x_unit as Hwx.
  pose proof (unit_vec3d_nonzero _ Hwz) as Hwz0.
  pose proof (unit_vec3d_nonzero _ Hwx) as Hwx0.
  destruct (from_to_regular newz world_z Hz Hwz0
              (not_opposite_sum _ _ Hz Hwz0 Hoz)) as [R1 U1].
  fold q1 nz in R1, U1. rewrite (normalize_of_unit _ Hwz) in R1.
  assert (Hx' : newx' <> zero_vec3d) by (apply rotate_nonzero; assumption).
  pose proof (not_opposite_sum _ _ Hx' Hwx0 Hox) as Hsum2.
  destruct (from_to_regular newx' world_x Hx' Hwx0 Hsum2) as [R2 U2].
  fold q2 in R2, U2. rewrite (normalize_of_unit _ Hwx) in R2.
  assert (HU : unit_rotation q) by (rewrite Hq; apply mul_unit; assumption).
  assert (Hcomp : forall v, reb_vec3d_rotate v q
                    = reb_vec3d_rotate (reb_vec3d_rotate v q1) q2).
  { intros v. rewrite Hq. apply rotate_mul; assumption. }
  assert (Ex : reb_vec3d_rotate nx q = world_x).
  { rewrite Hcomp. unfold nx. rewrite <- rotate_normalize by assumption.
    exact R2. }
  assert (Ez : reb_vec3d_rotate nz q = world_z).
  { rewrite Hcomp, R1.
    apply about_z_fixes_z. apply from_to_about_z; try assumption.
    - rewrite <- dot_world_z, <- R1. unfold newx'.
      rewrite rotate_dot by assumption.
      apply dot_normalize_r.
      destruct newz, newx; core_unfold; lra.
    - reflexivity. }
  repeat split; try assumption.
  rewrite <- (rotate_cross nz nx q HU), Ex, Ez. apply cross_world_z_x.
Qed.

Lemma to_new_axes_carries_the_frame_witness :
  let q := reb_rotation_init_to_new_axes world_y world_x in
  let nz := reb_vec3d_normalize world_y in
  let nx := reb_vec3d_normalize world_x in
  unit_rotation q
  /\ reb_vec3d_rotate nx q = world_x
  /\ reb_vec3d_rotate (reb_vec3d_cross nz nx) q = world_y
  /\ reb_vec3d_rotate nz q = world_z.
Proof.
  apply (to_new_axes_carries_the_frame world_y world_x).
  - exact (unit_vec3d_nonzero _ world_y_unit).
  - exact (unit_vec3d_nonzero _ world_x_unit).
  - exact not_opposite_y_z.
  - destruct from_to_y_z_about_x as (_ & _ & ->).
    exact (not_opposite_self _ (unit_vec3d_nonzero _ world_x_unit)).
  - cbv [world_x world_y]; core_unfold; ring.
Defined.

(** ** Orbital angles *)

(** X13.  [reb_rotation_init_orbital Omega i omega] turns a vector about
    the world z-axis by [omega], then about the world x-axis by [i], then
    about the world z-axis by [Omega].  It sends the world z-axis to the
    orbit normal [(sin i sin Omega, - sin i cos Omega, cos i)] and the
    world x-axis to the direction of periapsis. *)
Theorem init_orbital_is_the_313_sequence
    (Omega0 inc0 omega0 : R) (v : reb_vec3d R) :
  let q := reb_rotation_init_orbital Omega0 inc0 omega0 in
  reb_vec3d_rotate v q
  = reb_vec3d_rotate
      (reb_vec3d_rotate
         (reb_vec3d_rotate v (reb_rotation_init_angle_axis omega0 world_z))
         (reb_rotation_init_angle_axis inc0 world_x))
      (reb_rotation_init_angle_axis Omega0 world_z)
  /\ reb_vec3d_rotate world_z q
     = {| x := sin inc0 * sin Omega0;
          y := - (sin inc0 * cos Omega0);
          z := cos inc0 |}
  /\ reb_vec3d_rotate world_x q
     = {| x := cos Omega0 * cos omega0
               - sin Omega0 * sin omega0 * cos inc0;
          y := sin Omega0 * cos omega0
               + cos Omega0 * sin omega0 * cos inc0;
          z := sin omega0 * sin inc0 |}.
Proof.
  cbv zeta.
  assert (Hz : world_z <> zero_vec3d)
    by exact (unit_vec3d_nonzero _ world_z_unit).
  assert (Hx : world_x <> zero_vec3d)
    by exact (unit_vec3d_nonzero _ world_x_unit).
  assert (Hcomp : forall w,
    reb_vec3d_rotate w (reb_rotation_init_orbital Omega0 inc0 omega0)
    = reb_vec3d_rotate
        (reb_vec3d_rotate
           (reb_vec3d_rotate w (reb_rotation_init_angle_axis omega0 world_z))
           (reb_rotation_init_angle_axis inc0 world_x))
        (reb_rotation_init_angle_axis Omega0 world_z)).
  { intros w. unfold reb_rotation_init_orbital; cbv zeta.
    fold world_x world_z.
    pose proof (angle_axis_unit omega0 world_z Hz) as U1.
    pose proof (angle_axis_unit inc0 world_x Hx) as U2.
    pose proof (angle_axis_unit Omega0 world_z Hz) as U3.
    rewrite (rotate_mul _ _ _ U3 (mul_unit _ _ U2 U1)).
    rewrite (rotate_mul _ _ _ U2 U1). reflexivity. }
  split; [apply Hcomp | split]; rewrite Hcomp;
    rewrite rotate_about_z, rotate_about_x, rotate_about_z;
    apply vec3d_eq; cbv [world_x world_z x y z]; ring.
Qed.

Lemma to_orbital_inc (q : reb_rotation R) :
  inc (reb_rotation_to_orbital q)
  = acos (2 * (r q * r q + iz q * iz q) - 1).
Proof.
  unfold reb_rotation_to_orbital; cbv zeta.
  destruct (Rltb MIN_INC _ && Rltb MIN_INC _); reflexivity.
Qed.

Lemma init_orbital_inclination (Omega0 inc0 omega0 : R) :
  0 <= inc0 <= PI ->
  let q := reb_rotation_init_orbital Omega0 inc0 omega0 in
  acos (2 * (r q * r q + iz q * iz q) - 1) = inc0.
Proof.
  intros Hi; cbv zeta. rewrite init_orbital_components. cbn [r iz].
  set (S := (Omega0 + omega0) / 2).
  pose proof (sin2_cos2 S) as HS. unfold Rsqr in HS.
  replace (2 * (cos (inc0 / 2) * cos S * (cos (inc0 / 2) * cos S)
                + cos (inc0 / 2) * sin S * (cos (inc0 / 2) * sin S)) - 1)
    with (cos (2 * (inc0 / 2))).
  - replace (2 * (inc0 / 2)) with inc0 by field. apply acos_cos. exact Hi.
  - rewrite cos_2a_cos.
    transitivity (2 * cos (inc0 / 2) * cos (inc0 / 2)
                  * (sin S * sin S + cos S * cos S) - 1);
      [rewrite HS; ring | ring].
Qed.

Lemma wrap_negative_zero : wrap_negative 0 = 0.
Proof.
  unfold wrap_negative.
  replace (Rltb 0 0) with false by (symmetry; apply Rltb_false; lra).
  reflexivity.
Qed.

Lemma to_orbital_low (q : reb_rotation R) :
  let i := acos (2 * (r q * r q + iz q * iz q) - 1) in
  0 <= i <= MIN_INC ->
  reb_rotation_to_orbital q
  = {| Omega := 0; inc := i;
       omega := wrap_negative (2 * atan2 (iz q) (r q)) |}.
Proof.
  intros i [Hl Hu].
  unfold reb_rotation_to_orbital; cbv zeta. fold i.
  assert (E1 : Rltb MIN_INC (Rabs i) = false).
  { apply Rltb_false. rewrite Rabs_pos_eq; lra. }
  rewrite E1. cbn [andb negb]. fold (wrap_negative 0).
  rewrite wrap_negative_zero. reflexivity.
Qed.

Lemma to_orbital_high (q : reb_rotation R) :
  let i := acos (2 * (r q * r q + iz q * iz q) - 1) in
  PI - MIN_INC <= i <= PI ->
  reb_rotation_to_orbital q
  = {| Omega := 0; inc := i;
       omega := wrap_negative (2 * atan2 (iy q) (ix q)) |}.
Proof.
  intros i [Hl Hu]. pose proof PI_gt_3 as Hpi.
  assert (Hm : MIN_INC < 1) by (unfold MIN_INC; lra).
  unfold reb_rotation_to_orbital; cbv zeta. fold i.
  assert (E1 : Rltb MIN_INC (Rabs i) = true).
  { apply Rltb_true. rewrite Rabs_pos_eq; lra. }
  assert (E2 : Rltb MIN_INC (Rabs (i - M_PI)) = false).
  { apply Rltb_false. unfold M_PI.
    destruct (Req_dec i PI) as [-> | Hne].
    - replace (PI - PI) with 0 by ring. rewrite Rabs_R0.
      pose proof MIN_INC_pos. lra.
    - rewrite Rabs_left; lra. }
  rewrite E1, E2. cbn [andb negb]. fold (wrap_negative 0).
  rewrite wrap_negative_zero. reflexivity.
Qed.

(** Gimbal lock, in the exact model only (in binary64 the argument of
    [acos] can round outside [-1, 1] at these inclinations, and the
    inclination stored is then NaN).  On a rotation built from an
    inclination within [MIN_INC] of [0], [reb_rotation_to_orbital] returns
    [Omega = 0], the inclination, and an [omega] equal to [Omega + omega] of
    the inputs modulo [2 * PI]; within [MIN_INC] of [PI] it returns
    [Omega = 0], the inclination, and an [omega] equal to [Omega - omega] of
    the inputs modulo [2 * PI]. *)
Theorem to_orbital_at_singular_inclinations (Omega0 inc0 omega0 : R) :
  let a := reb_rotation_to_orbital
             (reb_rotation_init_orbital Omega0 inc0 omega0) in
  (0 <= inc0 <= MIN_INC ->
   Omega a = 0 /\ inc a = inc0
   /\ exists k : Z, omega a = Omega0 + omega0 + 2 * IZR k * PI)
  /\ (PI - MIN_INC <= inc0 <= PI ->
      Omega a = 0 /\ inc a = inc0
      /\ exists k : Z, omega a = Omega0 - omega0 + 2 * IZR k * PI).
Proof.
  cbv zeta. pose proof PI_gt_3 as Hpi.
  assert (Hm : 0 < MIN_INC < 1) by (unfold MIN_INC; lra).
  split; intros [Hl Hu].
  - pose proof (init_orbital_inclination Omega0 inc0 omega0) as Hi.
    cbv zeta in Hi. rewrite to_orbital_low; rewrite Hi; try lra.
    cbn [Omega inc omega]. split; [reflexivity | split; [reflexivity | ]].
    rewrite init_orbital_components; cbn [r iz].
    assert (Hci : 0 < cos (inc0 / 2)) by (apply cos_gt_0; lra).
    destruct (atan2_of_polar (cos (inc0 / 2)) ((Omega0 + omega0) / 2) Hci)
      as [k1 ->].
    destruct (wrap_negative_period
                (2 * ((Omega0 + omega0) / 2 + 2 * IZR k1 * PI))) as [k2 ->].
    exists (2 * k1 + k2)%Z. rewrite plus_IZR, mult_IZR. field.
  - pose proof (init_orbital_inclination Omega0 inc0 omega0) as Hi.
    cbv zeta in Hi. rewrite to_orbital_high; rewrite Hi; try lra.
    cbn [Omega inc omega]. split; [reflexivity | split; [reflexivity | ]].
    rewrite init_orbital_components; cbn [ix iy].
    assert (Hsi : 0 < sin (inc0 / 2)) by (apply sin_gt_0; lra).
    destruct (atan2_of_polar (sin (inc0 / 2)) ((Omega0 - omega0) / 2) Hsi)
      as [k1 ->].
    destruct (wrap_negative_period
                (2 * ((Omega0 - omega0) / 2 + 2 * IZR k1 * PI))) as [k2 ->].
    exists (2 * k1 + k2)%Z. rewrite plus_IZR, mult_IZR. field.
Qed.

Lemma to_orbital_at_singular_inclinations_witness :
  let a0 := reb_rotation_to_orbital (reb_rotation_init_orbital 1 0 2) in
  let a1 := reb_rotation_to_orbital (reb_rotation_init_orbital 1 PI 2) in
  (Omega a0 = 0 /\ inc a0 = 0
   /\ exists k : Z, omega a0 = 1 + 2 + 2 * IZR k * PI)
  /\ (Omega a1 = 0 /\ inc a1 = PI
      /\ exists k : Z, omega a1 = 1 - 2 + 2 * IZR k * PI).
Proof.
  pose proof MIN_INC_pos as Hm. pose proof PI_gt_3 as Hpi.
  split.
  - apply (to_orbital_at_singular_inclinations 1 0 2). lra.
  - apply (to_orbital_at_singular_inclinations 1 PI 2). lra.
Defined.

Lemma wrap_negative_cases (a : R) :
  wrap_negative a = a \/ wrap_negative a = a + 2 * PI.
Proof.
  unfold wrap_negative, M_PI. destruct (Rltb a 0); [right; ring | left].
  reflexivity.
Qed.

Lemma rotate_negated (v : reb_vec3d R) (q : reb_rotation R) :
  reb_vec3d_rotate v (negated q) = reb_vec3d_rotate v q.
Proof.
  destruct v, q. apply vec3d_eq; cbv [negated]; core_unfold; ring.
Qed.

Lemma cos_minus_PI (t : R) : cos (t - PI) = - cos t.
Proof. rewrite cos_minus, cos_PI, sin_PI. ring. Qed.

Lemma sin_minus_PI (t : R) : sin (t - PI) = - sin t.
Proof. rewrite sin_minus, cos_PI, sin_PI. ring. Qed.

Lemma cos_plus_2PI (t : R) : cos (t + 2 * PI) = cos t.
Proof. rewrite cos_plus, cos_2PI, sin_2PI. ring. Qed.

Lemma sin_plus_2PI (t : R) : sin (t + 2 * PI) = sin t.
Proof. rewrite sin_plus, cos_2PI, sin_2PI. ring. Qed.

(** A unit quaternion of regular inclination in the polar form that
    [reb_rotation_to_orbital] reads it in. *)
Lemma unit_rotation_polar (q : reb_rotation R) :
  unit_rotation q ->
  let i := acos (2 * (r q * r q + iz q * iz q) - 1) in
  0 < i < PI ->
  let S := atan2 (iz q) (r q) in
  let D := atan2 (iy q) (ix q) in
  q = {| ix := sin (i / 2) * cos D; iy := sin (i / 2) * sin D;
         iz := cos (i / 2) * sin S; r := cos (i / 2) * cos S |}.
Proof.
  intros Hu i Hi S D. destruct q as [qx qy qz qr].
  unfold unit_rotation in Hu. cbn [r ix iy iz] in *.
  assert (HL : reb_rotation_length_squared (mk_rotation qx qy qz qr)
               = qr * qr + qx * qx + qy * qy + qz * qz) by reflexivity.
  rewrite HL in Hu. clear HL.
  assert (HX : -1 <= 2 * (qr * qr + qz * qz) - 1 <= 1) by nra.
  pose proof (cos_acos _ HX) as Hcos. fold i in Hcos.
  replace i with (2 * (i / 2)) in Hcos at 1 by field.
  rewrite cos_2a_cos in Hcos.
  pose proof (sin2_cos2 (i / 2)) as Hsc. unfold Rsqr in Hsc.
  assert (Hc : 0 < cos (i / 2)) by (apply cos_gt_0; lra).
  assert (Hs : 0 < sin (i / 2)) by (apply sin_gt_0; lra).
  set (c2 := cos (i / 2)) in *. set (s2 := sin (i / 2)) in *.
  assert (Hc2 : c2 * c2 = qr * qr + qz * qz) by lra.
  assert (Hs2 : s2 * s2 = qx * qx + qy * qy) by lra.
  assert (Hnz1 : qr <> 0 \/ qz <> 0).
  { destruct (Req_dec qr 0) as [-> | ]; [right | left; assumption].
    intros ->. nra. }
  assert (Hnz2 : qx <> 0 \/ qy <> 0).
  { destruct (Req_dec qx 0) as [-> | ]; [right | left; assumption].
    intros ->. nra. }
  destruct (atan2_polar qz qr Hnz1) as (r1 & Hr1 & Ea & Eb). fold S in Ea, Eb.
  destruct (atan2_polar qy qx Hnz2) as (r2 & Hr2 & Ec & Ed). fold D in Ec, Ed.
  pose proof (sin2_cos2 S) as HS. unfold Rsqr in HS.
  pose proof (sin2_cos2 D) as HD. unfold Rsqr in HD.
  assert (E1 : r1 * r1 = c2 * c2).
  { rewrite Hc2, Ea, Eb.
    transitivity (r1 * r1 * (sin S * sin S + cos S * cos S));
      [rewrite HS; ring | ring]. }
  assert (E2 : r2 * r2 = s2 * s2).
  { rewrite Hs2, Ec, Ed.
    transitivity (r2 * r2 * (sin D * sin D + cos D * cos D));
      [rewrite HD; ring | ring]. }
  assert (r1 = c2) by nra. assert (r2 = s2) by nra. subst r1 r2.
  apply rotation_eq; cbn [ix iy iz r]; assumption.
Qed.

(** X15.  For a unit quaternion whose extracted inclination is strictly
    between [MIN_INC] and [PI - MIN_INC], rebuilding a rotation from the
    extracted angles gives the quaternion back, up to sign, and hence the
    same rotation. *)
Theorem init_orbital_to_orbital_roundtrip (q : reb_rotation R) :
  unit_rotation q ->
  let a := reb_rotation_to_orbital q in
  MIN_INC < inc a < PI - MIN_INC ->
  let q' := reb_rotation_init_orbital (Omega a) (inc a) (omega a) in
  (q' = q \/ q' = negated q)
  /\ forall v, reb_vec3d_rotate v q' = reb_vec3d_rotate v q.
Proof.
  intros Hu a Hreg q'. pose proof MIN_INC_pos as Hm.
  assert (Hq : q' = q \/ q' = negated q).
  { unfold q', a in *. rewrite to_orbital_inc in Hreg.
    rewrite (to_orbital_regular q Hreg). cbn [Omega inc omega].
    pose proof (unit_rotation_polar q Hu) as Hp. cbv zeta in Hp.
    assert (Hi : 0 < acos (2 * (r q * r q + iz q * iz q) - 1) < PI) by lra.
    specialize (Hp Hi).
    set (i := acos (2 * (r q * r q + iz q * iz q) - 1)) in *.
    set (S := atan2 (iz q) (r q)) in *. set (D := atan2 (iy q) (ix q)) in *.
    rewrite init_orbital_components.
    destruct (wrap_negative_cases (S + D)) as [-> | ->],
             (wrap_negative_cases (S - D)) as [-> | ->].
    - left. refine (eq_trans _ (eq_sym Hp)).
      replace ((S + D - (S - D)) / 2) with D by field.
      replace ((S + D + (S - D)) / 2) with S by field. reflexivity.
    - right. refine (eq_trans _ (f_equal negated (eq_sym Hp))).
      unfold negated; cbn [ix iy iz r].
      replace ((S + D - (S - D + 2 * PI)) / 2) with (D - PI) by field.
      replace ((S + D + (S - D + 2 * PI)) / 2) with (S + PI) by field.
      rewrite cos_minus_PI, sin_minus_PI, neg_cos, neg_sin.
      apply rotation_eq; cbn [ix iy iz r]; ring.
    - right. refine (eq_trans _ (f_equal negated (eq_sym Hp))).
      unfold negated; cbn [ix iy iz r].
      replace ((S + D + 2 * PI - (S - D)) / 2) with (D + PI) by field.
      replace ((S + D + 2 * PI + (S - D)) / 2) with (S + PI) by field.
      rewrite !neg_cos, !neg_sin.
      apply rotation_eq; cbn [ix iy iz r]; ring.
    - left. refine (eq_trans _ (eq_sym Hp)).
      replace ((S + D + 2 * PI - (S - D + 2 * PI)) / 2) with D by field.
      replace ((S + D + 2 * PI + (S - D + 2 * PI)) / 2)
        with (S + 2 * PI) by field.
      rewrite cos_plus_2PI, sin_plus_2PI. reflexivity. }
  split; [exact Hq | ].
  intros v. destruct Hq as [-> | ->]; [reflexivity | apply rotate_negated].
Qed.

Lemma init_orbital_to_orbital_roundtrip_witness :
  let q := {| ix := 1 / 2; iy := 1 / 2; iz := 1 / 2; r := 1 / 2 |} in
  let a := reb_rotation_to_orbital q in
  let q' := reb_rotation_init_orbital (Omega a) (inc a) (omega a) in
  (q' = q \/ q' = negated q)
  /\ forall v, reb_vec3d_rotate v q' = reb_vec3d_rotate v q.
Proof.
  intros q.
  apply (init_orbital_to_orbital_roundtrip q).
  - unfold q. core_unfold. lra.
  - rewrite to_orbital_inc. unfold q; cbn [r iz].
    replace (2 * (1 / 2 * (1 / 2) + 1 / 2 * (1 / 2)) - 1) with 0 by field.
    rewrite acos_0. pose proof PI_gt_3. unfold MIN_INC. lra.
Defined.

End Further.

(** ** Particles and simulations *)

Section FurtherObjects.
Context {T : Type} `{Double T} {Other SimOther : Type}.

Lemma irotate_loop_nil (n i : nat) (q : reb_rotation T) :
  irotate_loop n i (@nil (Particle.reb_particle T Other)) q = [].
Proof.
  revert i; induction n as [ | n IH]; intros i; cbn; [reflexivity | ].
  destruct i; apply IH.
Qed.

Lemma irotate_loop_shift (n i : nat) (p : Particle.reb_particle T Other)
    (ps : list (Particle.reb_particle T Other)) (q : reb_rotation T) :
  irotate_loop n (S i) (p :: ps) q = p :: irotate_loop n i ps q.
Proof.
  revert i ps; induction n as [ | n IH]; intros i ps; cbn;
    [reflexivity | ]. apply IH.
Qed.

Lemma irotate_loop_closed_form (n : nat)
    (ps : list (Particle.reb_particle T Other)) (q : reb_rotation T) :
  irotate_loop n 0 ps q
  = map (fun p => reb_particle_irotate p q) (firstn n ps) ++ skipn n ps.
Proof.
  revert ps; induction n as [ | n IH]; intros ps; [reflexivity | ].
  destruct ps as [ | p ps].
  - cbn. apply irotate_loop_nil.
  - cbn [irotate_loop array_modify firstn skipn map app].
    rewrite irotate_loop_shift, IH. reflexivity.
Qed.

End FurtherObjects.

(** X16.  For any scalar type, [reb_simulation_irotate] returns the
    particle array with its first [N] entries rotated and the rest as they
    were; with [N] zero or negative the simulation is returned as it was,
    and with [N] the length of the array every particle is rotated. *)
Theorem simulation_irotate_rotates_the_first_N
    (T : Type) (D : Double T) (Other SimOther : Type)
    (sim : Simulation.reb_simulation T Other SimOther) (q : reb_rotation T) :
  let sim' := reb_simulation_irotate sim q in
  let n := Z.to_nat (Simulation.N sim) in
  let ps := Simulation.particles sim in
  Simulation.particles sim'
  = map (fun p => reb_particle_irotate p q) (firstn n ps) ++ skipn n ps
  /\ ((Simulation.N sim <= 0)%Z -> sim' = sim)
  /\ (Simulation.N sim = Z.of_nat (length ps) ->
      Simulation.particles sim'
      = map (fun p => reb_particle_irotate p q) ps).
Proof.
  intros sim' n ps.
  assert (E : Simulation.particles sim'
              = map (fun p => reb_particle_irotate p q) (firstn n ps)
                ++ skipn n ps).
  { unfold sim', reb_simulation_irotate; cbn [Simulation.particles].
    apply irotate_loop_closed_form. }
  split; [exact E | split].
  - intros HN. unfold sim', reb_simulation_irotate; cbv zeta.
    replace (Z.to_nat (Simulation.N sim)) with O by lia.
    destruct sim; reflexivity.
  - intros HN. rewrite E.
    assert (Hn : n = length ps) by (unfold n; rewrite HN; lia).
    rewrite Hn, firstn_all, skipn_all. apply app_nil_r.
Qed.

Lemma simulation_irotate_rotates_the_first_N_witness :
  let p0 := Particle.mk 1%float 0%float 0%float 0%float 1%float 0%float tt in
  let sim := Simulation.mk 0%Z [p0] tt in
  reb_simulation_irotate sim (reb_rotation_identity (T := float)) = sim.
Proof.
  intros p0 sim.
  apply (simulation_irotate_rotates_the_first_N float float_Double unit unit
           sim reb_rotation_identity).
  cbn. lia.
Defined.

Section FurtherRealObjects.
Context {Other SimOther : Type}.
Local Open Scope R_scope.

Lemma particle_ext (p1 p2 : Particle.reb_particle R Other) :
  position p1 = position p2 -> velocity p1 = velocity p2 ->
  Particle.other p1 = Particle.other p2 -> p1 = p2.
Proof.
  destruct p1, p2; unfold position, velocity; cbn.
  intros E1 E2 ->. injection E1 as -> -> ->. injection E2 as -> -> ->.
  reflexivity.
Qed.

Lemma particle_irotate_mul (p : Particle.reb_particle R Other)
    (a b : reb_rotation R) :
  unit_rotation a -> unit_rotation b ->
  reb_particle_irotate (reb_particle_irotate p b) a
  = reb_particle_irotate p (reb_rotation_mul a b).
Proof.
  intros Ha Hb.
  destruct (particle_irotate_frame (reb_particle_irotate p b) a)
    as (P2 & V2 & O2).
  destruct (particle_irotate_frame p b) as (P1 & V1 & O1).
  destruct (particle_irotate_frame p (reb_rotation_mul a b))
    as (P3 & V3 & O3).
  apply particle_ext.
  - rewrite P2, P1, P3.
    change reb_vec3d_irotate with (@reb_vec3d_rotate R R_Double).
    symmetry. apply rotate_mul; assumption.
  - rewrite V2, V1, V3.
    change reb_vec3d_irotate with (@reb_vec3d_rotate R R_Double).
    symmetry. apply rotate_mul; assumption.
  - congruence.
Qed.

Lemma particle_irotate_identity (p : Particle.reb_particle R Other) :
  reb_particle_irotate p reb_rotation_identity = p.
Proof.
  destruct (particle_irotate_frame p reb_rotation_identity) as (P & V & O).
  apply particle_ext; [rewrite P | rewrite V | exact O];
    change reb_vec3d_irotate with (@reb_vec3d_rotate R R_Double);
    apply rotate_identity.
Qed.

Lemma simulation_particles_ext
    (s1 s2 : Simulation.reb_simulation R Other SimOther) :
  Simulation.N s1 = Simulation.N s2 ->
  Simulation.other s1 = Simulation.other s2 ->
  (forall j, nth_error (Simulation.particles s1) j
             = nth_error (Simulation.particles s2) j) ->
  s1 = s2.
Proof.
  destruct s1, s2; cbn; intros -> -> Hn.
  f_equal. apply nth_error_ext; assumption.
Qed.

End FurtherRealObjects.

(** X17.  In exact arithmetic, rotating a simulation by a unit quaternion
    [b] and then by a unit quaternion [a] is rotating it once by
    [reb_rotation_mul a b]; in particular rotating by [b] and then by
    [reb_rotation_inverse b] gives the simulation back. *)
Theorem simulation_irotate_composes
    (Other SimOther : Type)
    (sim : Simulation.reb_simulation R Other SimOther)
    (a b : reb_rotation R) :
  unit_rotation a -> unit_rotation b ->
  reb_simulation_irotate (reb_simulation_irotate sim b) a
  = reb_simulation_irotate sim (reb_rotation_mul a b)
  /\ reb_simulation_irotate (reb_simulation_irotate sim b)
       (reb_rotation_inverse b)
     = sim.
Proof.
  intros Ha Hb.
  assert (Hcomp : forall a', unit_rotation a' ->
            reb_simulation_irotate (reb_simulation_irotate sim b) a'
            = reb_simulation_irotate sim (reb_rotation_mul a' b)).
  { intros a' Ha'.
    destruct (simulation_irotate_frame (reb_simulation_irotate sim b) a')
      as (HN2 & Ho2 & _ & Hn2).
    destruct (simulation_irotate_frame sim b) as (HN1 & Ho1 & _ & Hn1).
    destruct (simulation_irotate_frame sim (reb_rotation_mul a' b))
      as (HN3 & Ho3 & _ & Hn3).
    apply simulation_particles_ext; [congruence | congruence | ].
    intros j. rewrite Hn2, Hn3, HN1, Hn1.
    destruct (Z.of_nat j <? Simulation.N sim)%Z; [ | reflexivity].
    destruct (nth_error (Simulation.particles sim) j) as [p | ];
      [ | reflexivity].
    cbn [option_map]. f_equal. apply particle_irotate_mul; assumption. }
  split; [apply Hcomp; assumption | ].
  rewrite (inverse_of_unit b Hb), Hcomp by (apply conjugate_unit; assumption).
  rewrite <- (inverse_of_unit b Hb), inverse_mul_l
    by (unfold unit_rotation in Hb; rewrite Hb; lra).
  destruct (simulation_irotate_frame sim reb_rotation_identity)
    as (HN & Ho & _ & Hn).
  apply simulation_particles_ext; [assumption | assumption | ].
  intros j. rewrite Hn.
  destruct (Z.of_nat j <? Simulation.N sim)%Z; [ | reflexivity].
  destruct (nth_error (Simulation.particles sim) j) as [p | ];
    [ | reflexivity].
  cbn [option_map]. f_equal. apply particle_irotate_identity.
Qed.

Section FurtherReal.
Local Open Scope R_scope.

Lemma simulation_irotate_composes_witness :
  let p0 := Particle.mk 1 2 3 0 1 0 tt in
  let sim := Simulation.mk 1%Z [p0; p0] tt in
  let a := {| ix := 0; iy := 3 / 5; iz := 0; r := 4 / 5 |} in
  let b := {| ix := 1; iy := 0; iz := 0; r := 0 |} in
  (reb_simulation_irotate (reb_simulation_irotate sim b) a
   = reb_simulation_irotate sim (reb_rotation_mul a b)
   /\ reb_simulation_irotate (reb_simulation_irotate sim b)
        (reb_rotation_inverse b)
      = sim).
Proof.
  intros p0 sim a b.
  apply (simulation_irotate_composes unit unit sim a b).
  - unfold a. core_unfold. lra.
  - unfold b. core_unfold. lra.
Defined.

(** X18.  In exact arithmetic, rotating a particle by a unit quaternion
    keeps the lengths of its position and velocity and their dot product,
    and turns the cross product of position and velocity (the specific
    angular momentum) by the same rotation. *)
Theorem particle_irotate_preserves_lengths
    (Other : Type) (p : Particle.reb_particle R Other) (q : reb_rotation R) :
  unit_rotation q ->
  let p' := reb_particle_irotate p q in
  reb_vec3d_length_squared (position p')
  = reb_vec3d_length_squared (position p)
  /\ reb_vec3d_length_squared (velocity p')
     = reb_vec3d_length_squared (velocity p)
  /\ reb_vec3d_dot (position p') (velocity p')
     = reb_vec3d_dot (position p) (velocity p)
  /\ reb_vec3d_cross (position p') (velocity p')
     = reb_vec3d_rotate (reb_vec3d_cross (position p) (velocity p)) q.
Proof.
  intros Hq p'. destruct (particle_irotate_frame p q) as (P & V & _).
  fold p' in P, V. rewrite P, V.
  change reb_vec3d_irotate with (@reb_vec3d_rotate R R_Double).
  repeat split.
  - apply rotate_length_squared; assumption.
  - apply rotate_length_squared; assumption.
  - apply rotate_dot; assumption.
  - apply rotate_cross; assumption.
Qed.

Lemma particle_irotate_preserves_lengths_witness :
  let p := Particle.mk 1 2 3 0 1 0 tt in
  let q := {| ix := 0; iy := 3 / 5; iz := 0; r := 4 / 5 |} in
  let p' := reb_particle_irotate p q in
  (reb_vec3d_length_squared (position p')
   = reb_vec3d_length_squared (position p)
   /\ reb_vec3d_length_squared (velocity p')
      = reb_vec3d_length_squared (velocity p)
   /\ reb_vec3d_dot (position p') (velocity p')
      = reb_vec3d_dot (position p) (velocity p)
   /\ reb_vec3d_cross (position p') (velocity p')
      = reb_vec3d_rotate (reb_vec3d_cross (position p) (velocity p)) q).
Proof.
  intros p q.
  apply (particle_irotate_preserves_lengths unit p q).
  unfold q. core_unfold. lra.
Defined.

(** X19.  In exact arithmetic, on a unit vector [from] the antipodal branch
    returns a quaternion of squared norm [1 - m^2], [m] being the component
    of [from] along the selected world axis, and that quaternion sends
    [from] to [(2 m^2 - 1) from]: to [- from] exactly when the smallest
    component of [from] is zero. *)
Theorem from_to_antipodal_image_of_from (from : reb_vec3d R) :
  unit_vec3d from ->
  exists axis,
    smallest_component_axis from axis
    /\ let m := reb_vec3d_dot from axis in
       reb_rotation_length_squared (from_to_antipodal from) = 1 - m * m
       /\ reb_vec3d_rotate from (from_to_antipodal from)
          = reb_vec3d_mul from (2 * (m * m) - 1)
       /\ (reb_vec3d_rotate from (from_to_antipodal from)
           = reb_vec3d_mul from (-1) <-> m = 0).
Proof.
  intros Hf.
  destruct (from_to_antipodal_axis from)
    as (Hr & axis & Hin & Him & Hx & Hy & Hz).
  exists axis. split; [repeat split; assumption | ]. cbv zeta.
  assert (Hq : from_to_antipodal from
               = let c := reb_vec3d_cross from axis in
                 {| ix := x c; iy := y c; iz := z c; r := 0 |}).
  { cbv zeta. rewrite <- Him. apply rotation_eq; cbn; try reflexivity.
    exact Hr. }
  cbv zeta in Hq. rewrite Hq. clear Hq Him Hr Hx Hy Hz.
  pose proof (unit_vec3d_nonzero _ Hf) as Hnz.
  destruct from as [fx fy fz]. unfold unit_vec3d in Hf.
  assert (Himg : forall m : R,
            reb_vec3d_mul (mk_vec3d fx fy fz) (2 * (m * m) - 1)
            = reb_vec3d_mul (mk_vec3d fx fy fz) (-1) <-> m = 0).
  { intros m. split.
    - intros E. injection E as E1 E2 E3.
      assert (Hm : (m * m) * fx = 0 /\ (m * m) * fy = 0 /\ (m * m) * fz = 0)
        by (cbv [dmul R_Double] in *; repeat split; lra).
      destruct Hm as (M1 & M2 & M3).
      destruct (Req_dec m 0) as [ | Hm0]; [assumption | exfalso].
      assert (Hmm : m * m <> 0) by nra.
      apply Hnz. apply vec3d_eq; cbn;
        [ apply (Rmult_eq_reg_l (m * m)) | apply (Rmult_eq_reg_l (m * m))
        | apply (Rmult_eq_reg_l (m * m)) ]; try assumption; lra.
    - intros ->. apply vec3d_eq; core_unfold; ring. }
  cbn in Hin.
  destruct Hin as [<- | [<- | [<- | []]]]; core_unfold.
  - set (m := fx * 1 + fy * 0 + fz * 0) in *.
    assert (Em : m = fx) by (unfold m; ring).
    assert (Erot : reb_vec3d_rotate (mk_vec3d fx fy fz)
                     {| ix := fy * 0 - fz * 0; iy := fz * 1 - fx * 0;
                        iz := fx * 0 - fy * 1; r := 0 |}
                   = reb_vec3d_mul (mk_vec3d fx fy fz) (2 * (m * m) - 1)).
    { apply vec3d_eq; core_unfold.
      - transitivity (fx * (2 * (fx * fx) - 2 * (fx * fx + fy * fy
                                                  + fz * fz) + 1));
          [ring | rewrite Hf, Em; ring].
      - transitivity (fy * (2 * (fx * fx) - 2 * (fx * fx + fy * fy
                                                  + fz * fz) + 1));
          [ring | rewrite Hf, Em; ring].
      - transitivity (fz * (2 * (fx * fx) - 2 * (fx * fx + fy * fy
                                                  + fz * fz) + 1));
          [ring | rewrite Hf, Em; ring]. }
    core_unfold. repeat split.
    + transitivity (fx * fx + fy * fy + fz * fz - fx * fx);
        [ring | rewrite Hf, Em; ring].
    + exact Erot.
    + intros E. apply (Himg m). rewrite <- Erot. exact E.
    + intros E. rewrite Erot. apply (Himg m). exact E.
  - set (m := fx * 0 + fy * 1 + fz * 0) in *.
    assert (Em : m = fy) by (unfold m; ring).
    assert (Erot : reb_vec3d_rotate (mk_vec3d fx fy fz)
                     {| ix := fy * 0 - fz * 1; iy := fz * 0 - fx * 0;
                        iz := fx * 1 - fy * 0; r := 0 |}
                   = reb_vec3d_mul (mk_vec3d fx fy fz) (2 * (m * m) - 1)).
    { apply vec3d_eq; core_unfold.
      - transitivity (fx * (2 * (fy * fy) - 2 * (fx * fx + fy * fy
                                                  + fz * fz) + 1));
          [ring | rewrite Hf, Em; ring].
      - transitivity (fy * (2 * (fy * fy) - 2 * (fx * fx + fy * fy
                                                  + fz * fz) + 1));
          [ring | rewrite Hf, Em; ring].
      - transitivity (fz * (2 * (fy * fy) - 2 * (fx * fx + fy * fy
                                                  + fz * fz) + 1));
          [ring | rewrite Hf, Em; ring]. }
    core_unfold. repeat split.
    + transitivity (fx * fx + fy * fy + fz * fz - fy * fy);
        [ring | rewrite Hf, Em; ring].
    + exact Erot.
    + intros E. apply (Himg m). rewrite <- Erot. exact E.
    + intros E. rewrite Erot. apply (Himg m). exact E.
  - set (m := fx * 0 + fy * 0 + fz * 1) in *.
    assert (Em : m = fz) by (unfold m; ring).
    assert (Erot : reb_vec3d_rotate (mk_vec3d fx fy fz)
                     {| ix := fy * 1 - fz * 0; iy := fz * 0 - fx * 1;
                        iz := fx * 0 - fy * 0; r := 0 |}
                   = reb_vec3d_mul (mk_vec3d fx fy fz) (2 * (m * m) - 1)).
    { apply vec3d_eq; core_unfold.
      - transitivity (fx * (2 * (fz * fz) - 2 * (fx * fx + fy * fy
                                                  + fz * fz) + 1));
          [ring | rewrite Hf, Em; ring].
      - transitivity (fy * (2 * (fz * fz) - 2 * (fx * fx + fy * fy
                                                  + fz * fz) + 1));
          [ring | rewrite Hf, Em; ring].
      - transitivity (fz * (2 * (fz * fz) - 2 * (fx * fx + fy * fy
                                                  + fz * fz) + 1));
          [ring | rewrite Hf, Em; ring]. }
    core_unfold. repeat split.
    + transitivity (fx * fx + fy * fy + fz * fz - fz * fz);
        [ring | rewrite Hf, Em; ring].
    + exact Erot.
    + intros E. apply (Himg m). rewrite <- Erot. exact E.
    + intros E. rewrite Erot. apply (Himg m). exact E.
Qed.

Lemma from_to_antipodal_image_of_from_witness :
  let from := {| x := 2 / 3; y := 2 / 3; z := 1 / 3 |} in
  exists axis,
    smallest_component_axis from axis
    /\ let m := reb_vec3d_dot from axis in
       reb_rotation_length_squared (from_to_antipodal from) = 1 - m * m
       /\ reb_vec3d_rotate from (from_to_antipodal from)
          = reb_vec3d_mul from (2 * (m * m) - 1)
       /\ (reb_vec3d_rotate from (from_to_antipodal from)
           = reb_vec3d_mul from (-1) <-> m = 0).
Proof.
  intros from. apply (from_to_antipodal_image_of_from from).
  unfold from. core_unfold. lra.
Defined.

(** X20.  The rotation built by [reb_rotation_init_orbital] has period
    [2 * PI] in each of its three angles: adding [2 * PI] to one of them
    negates the quaternion, which rotates every vector as before. *)
Theorem init_orbital_period (Omega0 inc0 omega0 : R) (v : reb_vec3d R) :
  let q := reb_rotation_init_orbital Omega0 inc0 omega0 in
  let q1 := reb_rotation_init_orbital (Omega0 + 2 * PI) inc0 omega0 in
  let q2 := reb_rotation_init_orbital Omega0 (inc0 + 2 * PI) omega0 in
  let q3 := reb_rotation_init_orbital Omega0 inc0 (omega0 + 2 * PI) in
  (q1 = negated q /\ q2 = negated q /\ q3 = negated q)
  /\ reb_vec3d_rotate v q1 = reb_vec3d_rotate v q
  /\ reb_vec3d_rotate v q2 = reb_vec3d_rotate v q
  /\ reb_vec3d_rotate v q3 = reb_vec3d_rotate v q.
Proof.
  cbv zeta.
  assert (E : reb_rotation_init_orbital (Omega0 + 2 * PI) inc0 omega0
              = negated (reb_rotation_init_orbital Omega0 inc0 omega0)
              /\ reb_rotation_init_orbital Omega0 (inc0 + 2 * PI) omega0
                 = negated (reb_rotation_init_orbital Omega0 inc0 omega0)
              /\ reb_rotation_init_orbital Omega0 inc0 (omega0 + 2 * PI)
                 = negated (reb_rotation_init_orbital Omega0 inc0 omega0)).
  { rewrite !init_orbital_components. unfold negated; cbn [ix iy iz r].
    replace ((Omega0 + 2 * PI - omega0) / 2)
      with ((Omega0 - omega0) / 2 + PI) by field.
    replace ((Omega0 + 2 * PI + omega0) / 2)
      with ((Omega0 + omega0) / 2 + PI) by field.
    replace ((inc0 + 2 * PI) / 2) with (inc0 / 2 + PI) by field.
    replace ((Omega0 - (omega0 + 2 * PI)) / 2)
      with ((Omega0 - omega0) / 2 - PI) by field.
    replace ((Omega0 + (omega0 + 2 * PI)) / 2)
      with ((Omega0 + omega0) / 2 + PI) by field.
    rewrite !neg_cos, !neg_sin, cos_minus_PI, sin_minus_PI.
    repeat split; apply rotation_eq; cbn [ix iy iz r]; ring. }
  destruct E as (E1 & E2 & E3).
  split; [repeat split; assumption | ].
  rewrite E1, E2, E3, rotate_negated. repeat split.
Qed.

End FurtherReal.

(** ** binary64: zero inputs *)

(** X21.  In binary64, normalising a zero vector, whatever the signs of its
    zeros, divides by zero and returns NaN in every component, and so does
    inverting a zero quaternion: neither reports an error, and the NaN then
    spreads, a rotation by the inverted zero quaternion turning a finite
    vector into NaN. *)
Theorem zero_inputs_give_nan_binary64 (s1 s2 s3 s4 : bool) :
  let v := f64_vec3d (f64_zero s1) (f64_zero s2) (f64_zero s3) in
  let q := mk_rotation (f64_zero s1) (f64_zero s2) (f64_zero s3)
             (f64_zero s4) in
  PrimFloat.eqb (reb_vec3d_length_squared v) 0 = true
  /\ is_nan_vec3d (reb_vec3d_normalize v) = true
  /\ PrimFloat.eqb (reb_rotation_length_squared q) 0 = true
  /\ is_nan_rotation (reb_rotation_inverse q) = true
  /\ is_nan_vec3d (reb_vec3d_rotate (f64_vec3d 1 2 3)
                     (reb_rotation_inverse q)) = true.
Proof.
  destruct s1, s2, s3, s4; vm_compute; repeat split.
Qed.


(** ** The functions that call libm: the two instances *)

(** Over [R] the definitions of [WithLibm] are the ones used above. *)
Lemma init_angle_axis_real_instance (angle : R) (axis : reb_vec3d R) :
  WithLibm.reb_rotation_init_angle_axis angle axis
  = reb_rotation_init_angle_axis angle axis.
Proof. reflexivity. Qed.

Lemma init_orbital_real_instance (Omega0 inc0 omega0 : R) :
  WithLibm.reb_rotation_init_orbital Omega0 inc0 omega0
  = reb_rotation_init_orbital Omega0 inc0 omega0.
Proof. reflexivity. Qed.

Lemma to_orbital_real_instance (q : reb_rotation R) :
  WithLibm.reb_rotation_to_orbital q
  = (Omega (reb_rotation_to_orbital q), inc (reb_rotation_to_orbital q),
     omega (reb_rotation_to_orbital q)).
Proof.
  unfold WithLibm.reb_rotation_to_orbital, reb_rotation_to_orbital.
  cbv zeta.
  change (@m_ltb R R_MathH) with Rltb.
  change (@WithLibm.MIN_INC R R_MathH) with MIN_INC.
  change (@m_acos R R_MathH) with acos.
  change (@m_PI R R_MathH) with M_PI.
  destruct (Rltb MIN_INC _ && Rltb MIN_INC _); [reflexivity | ].
  destruct (negb _); reflexivity.
Qed.

(** Primitive floats have one NaN. *)
Lemma is_nan_eq (a : float) : PrimFloat.is_nan a = true -> a = nan.
Proof.
  intros Ha. rewrite <- (SF2Prim_Prim2SF a). unfold Prim2SF.
  rewrite Ha. reflexivity.
Qed.

Section Binary64Libm.
Variables (c_cos c_sin c_acos : float -> float).
Variable c_atan2 : float -> float -> float.
Local Open Scope float_scope.

(** When [acos] fails, the comparison [fabs(inc) > MIN_INC] is false and
    the branch written for inclination [0] runs. *)
Lemma to_orbital_acos_nan (q : reb_rotation float) :
  PrimFloat.is_nan (c_acos (2 * (r q * r q + iz q * iz q) - 1)) = true ->
  @WithLibm.reb_rotation_to_orbital float float_Double
    (f64_MathH c_cos c_sin c_acos c_atan2) q
  = (0, nan,
     @WithLibm.wrap_negative float float_Double
       (f64_MathH c_cos c_sin c_acos c_atan2) (2 * c_atan2 (iz q) (r q))).
Proof.
  intros Hn. apply is_nan_eq in Hn.
  unfold WithLibm.reb_rotation_to_orbital; cbv zeta.
  cbn [m_acos m_atan2 m_ltb m_PI f64_MathH d0 d1 d2 dadd dsub dmul dfabs
       float_Double].
  rewrite Hn. reflexivity.
Qed.

End Binary64Libm.

Section Binary64Claims.
Local Open Scope float_scope.

(** C4 (code bug).  At [Omega = 1], [i = 2e-8], [omega = 2], an inclination
    inside the claimed range, the binary64 quaternion that
    [reb_rotation_init_orbital] builds from the values libm returns for the
    three half-angles has [2 (r^2 + iz^2) - 1 = 1.0000000000000004], above
    [1]: [acos] fails there, [reb_rotation_to_orbital] takes the branch
    written for inclination [0] and stores [(Omega, inc, omega) =
    (0, NaN, 3)] where the claim has [(1, 2e-8, 2)].  The hypotheses say
    what libm returns on the arguments met on the way (the values are
    glibc's) and that [acos] returns NaN above [1], as C's does. *)
Theorem to_orbital_init_orbital_nan_binary64
    (c_cos c_sin c_acos : float -> float)
    (c_atan2 : float -> float -> float) :
  let M := f64_MathH c_cos c_sin c_acos c_atan2 in
  let q := @WithLibm.reb_rotation_init_orbital float float_Double M
             1 0x1.5798ee2308c3ap-26 2 in
  (forall a, PrimFloat.ltb 1 a = true -> PrimFloat.is_nan (c_acos a) = true) ->
  c_cos 0x1p-1 = 0x1.c1528065b7d50p-1 ->
  c_sin 0x1p-1 = 0x1.eaee8744b05f0p-2 ->
  c_cos 0x1.5798ee2308c3ap-27 = 1 ->
  c_sin 0x1.5798ee2308c3ap-27 = 0x1.5798ee2308c3ap-27 ->
  c_cos 1 = 0x1.14a280fb5068cp-1 ->
  c_sin 1 = 0x1.aed548f090ceep-1 ->
  c_atan2 0x1.feb7a9b2c6d8cp-1 0x1.21bd54fc5f9acp-4 = 0x1.8p+0 ->
  q = {| ix := 0x1.2d88fa7e5b5dcp-27; iy := -0x1.49756ec525228p-28;
         iz := 0x1.feb7a9b2c6d8cp-1; r := 0x1.21bd54fc5f9acp-4 |}
  /\ PrimFloat.ltb 1 (2 * (r q * r q + iz q * iz q) - 1) = true
  /\ @WithLibm.reb_rotation_to_orbital float float_Double M q
     = (0, nan, 3).
Proof.
  intros M q Hdom Hc1 Hs1 Hc2 Hs2 Hc3 Hs3 Hat.
  assert (Hq : q = {| ix := 0x1.2d88fa7e5b5dcp-27;
                      iy := -0x1.49756ec525228p-28;
                      iz := 0x1.feb7a9b2c6d8cp-1;
                      r := 0x1.21bd54fc5f9acp-4 |}).
  { subst q M. vm_compute. rewrite Hc1, Hs1, Hc2, Hs2, Hc3, Hs3.
    vm_compute. reflexivity. }
  rewrite Hq. split; [reflexivity | split; [vm_compute; reflexivity | ]].
  subst M. rewrite to_orbital_acos_nan.
  - cbn [iz r]. rewrite Hat. vm_compute. reflexivity.
  - apply Hdom. vm_compute. reflexivity.
Qed.

Lemma to_orbital_init_orbital_nan_binary64_witness :
  let M := f64_MathH table_cos table_sin table_acos table_atan2 in
  let q := @WithLibm.reb_rotation_init_orbital float float_Double M
             1 0x1.5798ee2308c3ap-26 2 in
  q = {| ix := 0x1.2d88fa7e5b5dcp-27; iy := -0x1.49756ec525228p-28;
         iz := 0x1.feb7a9b2c6d8cp-1; r := 0x1.21bd54fc5f9acp-4 |}
  /\ PrimFloat.ltb 1 (2 * (r q * r q + iz q * iz q) - 1) = true
  /\ @WithLibm.reb_rotation_to_orbital float float_Double M q
     = (0, nan, 3).
Proof.
  apply (to_orbital_init_orbital_nan_binary64
           table_cos table_sin table_acos table_atan2);
    try (vm_compute; reflexivity).
  intros a Ha. unfold table_acos. rewrite Ha. reflexivity.
Defined.

(** X23.  In binary64, for every quaternion and whatever libm returns
    elsewhere: when [acos] returns NaN, as C's does on an argument outside
    [-1, 1], [reb_rotation_to_orbital] reports no error and runs the branch
    written for inclination [0]; it stores [Omega = 0], [inc = NaN] and
    [omega = 2 atan2(iz, r)], shifted by [2 M_PI] when negative. *)
Theorem to_orbital_when_acos_fails_binary64
    (c_cos c_sin c_acos : float -> float)
    (c_atan2 : float -> float -> float) (q : reb_rotation float) :
  let M := f64_MathH c_cos c_sin c_acos c_atan2 in
  PrimFloat.is_nan (c_acos (2 * (r q * r q + iz q * iz q) - 1)) = true ->
  @WithLibm.reb_rotation_to_orbital float float_Double M q
  = (0, nan,
     let o := 2 * c_atan2 (iz q) (r q) in
     if PrimFloat.ltb o 0 then o + 0x1.921fb54442d18p+1 * 2 else o).
Proof. intros M Hn. apply (to_orbital_acos_nan _ _ _ _ q Hn). Qed.

(** At the quaternion built from [Omega = 1], [i = 2e-8], [omega = 2]. *)
Lemma to_orbital_when_acos_fails_binary64_witness :
  let M := f64_MathH table_cos table_sin table_acos table_atan2 in
  let q := {| ix := 0x1.2d88fa7e5b5dcp-27; iy := -0x1.49756ec525228p-28;
              iz := 0x1.feb7a9b2c6d8cp-1; r := 0x1.21bd54fc5f9acp-4 |} in
  @WithLibm.reb_rotation_to_orbital float float_Double M q
  = (0, nan,
     let o := 2 * table_atan2 (iz q) (r q) in
     if PrimFloat.ltb o 0 then o + 0x1.921fb54442d18p+1 * 2 else o).
Proof.
  intros M q.
  apply (to_orbital_when_acos_fails_binary64
           table_cos table_sin table_acos table_atan2 q).
  vm_compute. reflexivity.
Defined.

End Binary64Claims.
